(** * input-remapper: events, mapping handlers and presets

    A shallow embedding of
      - inputremapper/input_event.py            (InputEvent, EventActions)
      - inputremapper/injection/mapping_handlers/mapping_handler.py
                                                (MappingHandler)
      - inputremapper/configs/preset.py         (common_data, Preset)
    Python integers are unbounded, hence [Z].  Exceptions are values of
    [exn]; a method that may raise returns an [outcome]. *)

From Stdlib Require Import Ascii String.
From Stdlib Require DecimalString DecimalZ DecimalPos.
From Stdlib Require Import ZArith List Bool Permutation Lia.
Import ListNotations.
Local Open Scope Z_scope.

(** ** Python exceptions and outcomes *)

Inductive exn : Type :=
| KeyError
| TypeError
| ValueError
| AttributeError
| MappingParsingError.

Inductive outcome (A : Type) : Type :=
| Ok (a : A)
| Raise (e : exn).
Arguments Ok {A} a.
Arguments Raise {A} e.

(** ** input_event.py *)

(** [class EventActions(enum.Enum)] *)
Inductive EventActions : Type :=
| as_key
| recenter
| none.

Definition EventActions_eqb (a b : EventActions) : bool :=
  match a, b with
  | as_key, as_key | recenter, recenter | none, none => true
  | _, _ => false
  end.

(** [evdev.ecodes.EV_KEY], the kernel's event type for keys and buttons. *)
Definition EV_KEY : Z := 1.
Definition BTN_LEFT : Z := 272.

(** [@dataclass(frozen=True) class InputEvent] *)
Record InputEvent : Type := mkInputEvent {
  sec : Z;
  usec : Z;
  type : Z;
  code : Z;
  value : Z;
  action : EventActions
}.

(** What the right-hand side of [==] can be, as far as [__eq__]
    distinguishes it. *)
Inductive PyOther : Type :=
| OInputEvent (e : InputEvent)
| OEvdevEvent (esec eusec etype ecode evalue : Z)
| OTuple (items : list Z)
| OObject.

Definition tuple3_eqb (a b : Z * Z * Z) : bool :=
  let '(t1, c1, v1) := a in
  let '(t2, c2, v2) := b in
  (t1 =? t2) && (c1 =? c2) && (v1 =? v2).

(** [@property type_and_code] *)
Definition type_and_code (self : InputEvent) : Z * Z :=
  (type self, code self).

(** [@property event_tuple] *)
Definition event_tuple (self : InputEvent) : Z * Z * Z :=
  (type self, code self, value self).

(** [__eq__] *)
Definition __eq__ (self : InputEvent) (other : PyOther) : bool :=
  match other with
  | OInputEvent o => tuple3_eqb (event_tuple self) (type o, code o, value o)
  | OEvdevEvent _ _ t c v => tuple3_eqb (event_tuple self) (t, c, v)
  | OTuple [t; c; v] => tuple3_eqb (event_tuple self) (t, c, v)
  | OTuple _ => false
  | OObject => false
  end.

(** [a == b] for two InputEvents. *)
Definition InputEvent_eqb (a b : InputEvent) : bool := __eq__ a (OInputEvent b).

Section Hash.
(** Python's builtin [hash] on a tuple of three ints. *)
Variable py_hash : Z * Z * Z -> Z.

(** [__hash__] *)
Definition __hash__ (self : InputEvent) : Z :=
  py_hash (type self, code self, value self).
End Hash.

(** [@classmethod btn_left] *)
Definition btn_left : InputEvent := mkInputEvent 0 0 EV_KEY BTN_LEFT 1 none.

(** [@property is_key_event] *)
Definition is_key_event (self : InputEvent) : bool :=
  (type self =? EV_KEY) || EventActions_eqb (action self) as_key.

(** [modify]: every parameter but [action] defaults to [None]; [action]
    defaults to [EventActions.none]. *)
Definition modify (self : InputEvent)
    (sec' usec' type' code' value' : option Z)
    (action' : EventActions) : InputEvent :=
  mkInputEvent
    (match sec' with Some s => s | None => sec self end)
    (match usec' with Some u => u | None => usec self end)
    (match type' with Some t => t | None => type self end)
    (match code' with Some c => c | None => code self end)
    (match value' with Some v => v | None => value self end)
    (if negb (EventActions_eqb action' none) then action' else action self).

(** ** EventCombination *)

(** Modelled from the spec: [class EventCombination] lives in
    inputremapper/event_combination.py, which is not among the sources.
    The spec has it as an ordered sequence of InputEvents; the sources
    iterate it, test its truth value, compare it with [==] and use it as a
    dict key, as they would a tuple of events. *)
Definition EventCombination : Type := list InputEvent.

(** Modelled from the spec: [==] of two combinations, as of two tuples:
    same length and pairwise [==] items. *)
Fixpoint EventCombination_eqb (a b : EventCombination) : bool :=
  match a, b with
  | [], [] => true
  | x :: a', y :: b' => InputEvent_eqb x y && EventCombination_eqb a' b'
  | _, _ => false
  end.

(** The key a tuple of events is filed under: its items' identities. *)
Definition key_of (c : EventCombination) : list (Z * Z * Z) :=
  map event_tuple c.

(** Modelled from the spec: the spec's data model calls an EventCombination
    an ordered, deduplicated sequence of InputEvents; the class that would
    enforce it is not among the sources. *)
Definition deduplicated (c : EventCombination) : Prop :=
  NoDup (key_of c).

(** Every way of picking one item of [l], with the items left over, in
    the order of the picked position. *)
Fixpoint selections {A : Type} (l : list A) : list (A * list A) :=
  match l with
  | [] => []
  | x :: xs => (x, xs) :: map (fun p => (fst p, x :: snd p)) (selections xs)
  end.

Fixpoint permutations_of_length {A : Type} (n : nat) (l : list A)
  : list (list A) :=
  match n with
  | O => [[]]
  | S n' =>
      flat_map (fun p => map (cons (fst p)) (permutations_of_length n' (snd p)))
               (selections l)
  end.

(** Modelled from the spec: [EventCombination.get_permutations] is not
    among the sources; the spec has it enumerate all permutations of the
    combination's events.  They are listed in the order of
    [itertools.permutations]. *)
Definition get_permutations (self : EventCombination) : list EventCombination :=
  permutations_of_length (length self) self.

(** Modelled from the spec: [EventCombination.json_str] is not among the
    sources; the canonical string is made of [type,code,value] segments
    joined by [+].  The string is represented by the sequence of triples it
    spells. *)
Definition json_str (self : EventCombination) : list (Z * Z * Z) :=
  map event_tuple self.

Fixpoint json_key_eqb (a b : list (Z * Z * Z)) : bool :=
  match a, b with
  | [], [] => true
  | x :: a', y :: b' => tuple3_eqb x y && json_key_eqb a' b'
  | _, _ => false
  end.

(** ** Python dicts

    A dict is kept as the list of its items in insertion order.  Keys are
    compared with the key type's [==]; equal keys hash alike, so the hash
    never changes which item a lookup finds. *)

Section Dict.
Variables (K V : Type).
Variable keq : K -> K -> bool.

Definition dict : Type := list (K * V).

(** [d.get(k)] *)
Fixpoint dict_get (k : K) (d : dict) : option V :=
  match d with
  | [] => None
  | (k', v) :: d' => if keq k' k then Some v else dict_get k d'
  end.

(** [k in d] *)
Definition dict_mem (k : K) (d : dict) : bool :=
  match dict_get k d with
  | Some _ => true
  | None => false
  end.

(** [d[k] = v]: an item with an equal key keeps its key and its place. *)
Fixpoint dict_set (k : K) (v : V) (d : dict) : dict :=
  match d with
  | [] => [(k, v)]
  | (k', v') :: d' =>
      if keq k' k then (k', v) :: d' else (k', v') :: dict_set k v d'
  end.

(** [d.pop(k)]: the value and the remaining dict; [None] stands for the
    KeyError. *)
Fixpoint dict_pop (k : K) (d : dict) : option (V * dict) :=
  match d with
  | [] => None
  | (k', v) :: d' =>
      if keq k' k then Some (v, d')
      else match dict_pop k d' with
           | Some (r, d'') => Some (r, (k', v) :: d'')
           | None => None
           end
  end.

Definition dict_keys (d : dict) : list K := map fst d.
Definition dict_values (d : dict) : list V := map snd d.

(** [d1 == d2]: as many items, and every item of [d1] has an equal value
    under its key in [d2]. *)
Definition dict_eqb (veq : V -> V -> bool) (d1 d2 : dict) : bool :=
  Nat.eqb (length d1) (length d2)
  && forallb (fun kv => match dict_get (fst kv) d2 with
                        | Some v' => veq (snd kv) v'
                        | None => false
                        end) d1.

(** No two items of a dict have equal keys. *)
Fixpoint dict_wf (d : dict) : Prop :=
  match d with
  | [] => True
  | (k, _) :: d' => dict_get k d' = None /\ dict_wf d'
  end.
End Dict.

Arguments dict_get {K V} keq k d.
Arguments dict_mem {K V} keq k d.
Arguments dict_set {K V} keq k v d.
Arguments dict_pop {K V} keq k d.
Arguments dict_keys {K V} d.
Arguments dict_values {K V} d.
Arguments dict_eqb {K V} keq veq d1 d2.
Arguments dict_wf {K V} keq d.

(** ** Mapping *)

(** The only callback the sources ever attach:
    [Preset._combination_changed_callback]. *)
Inductive Callback : Type :=
| PresetCombinationChanged.

(** What the attribute [event_combination] holds: an EventCombination, or
    something [isinstance(..., EventCombination)] rejects. *)
Inductive CombinationField : Type :=
| Combination (c : EventCombination)
| NotACombination.

(** Modelled from the spec: [class Mapping] lives in
    inputremapper/configs/mapping.py, which is not among the sources.  The
    spec gives a Mapping as {event_combination, output spec, validity} with
    a single optional rename callback. *)
Record Mapping : Type := mkMapping {
  event_combination : CombinationField;
  output_symbol : option String.string;
  validity : bool;
  _combination_changed : option Callback
}.

(** [x == y] for a combination [x] and an attribute value [y]; a tuple is
    never equal to an object that is no tuple. *)
Definition combination_matches (x : EventCombination) (y : CombinationField)
  : bool :=
  match y with
  | Combination c => EventCombination_eqb x c
  | NotACombination => false
  end.

Definition CombinationField_eqb (x y : CombinationField) : bool :=
  match x, y with
  | Combination a, Combination b => EventCombination_eqb a b
  | NotACombination, NotACombination => true
  | _, _ => false
  end.

Definition option_string_eqb (a b : option String.string) : bool :=
  match a, b with
  | Some x, Some y => String.eqb x y
  | None, None => true
  | _, _ => false
  end.

(** Modelled from the spec: [Mapping.is_valid]. *)
Definition is_valid (self : Mapping) : bool := validity self.

(** Modelled from the spec: [Mapping.set_combination_changed_callback]. *)
Definition set_combination_changed_callback (self : Mapping) (cb : Callback)
  : Mapping :=
  mkMapping (event_combination self) (output_symbol self) (validity self)
            (Some cb).

(** Modelled from the spec: [Mapping.remove_combination_changed_callback]. *)
Definition remove_combination_changed_callback (self : Mapping) : Mapping :=
  mkMapping (event_combination self) (output_symbol self) (validity self) None.

(** Modelled from the spec: [Mapping.copy], a new object with the same
    contents. *)
Definition Mapping_copy (self : Mapping) : Mapping := self.

(** Modelled from the spec: [m1 == m2] compares the fields; the callback is
    a hook, not a field. *)
Definition Mapping_eqb (a b : Mapping) : bool :=
  CombinationField_eqb (event_combination a) (event_combination b)
  && option_string_eqb (output_symbol a) (output_symbol b)
  && Bool.eqb (validity a) (validity b).

(** Modelled from the spec: [Mapping.dict(exclude_defaults=True)] once
    ["event_combination"] is popped: the mapping's remaining fields. *)
Definition MappingDict : Type := option String.string.
Definition Mapping_dict_rest (self : Mapping) : MappingDict :=
  output_symbol self.

(** ** mapping_handler.py *)

(** [list.remove(x)]: drops the first item equal to [x]; [None] stands for
    the ValueError Python raises when there is no such item. *)
Fixpoint list_remove (x : InputEvent) (l : list InputEvent)
  : option (list InputEvent) :=
  match l with
  | [] => None
  | y :: l' =>
      if InputEvent_eqb y x then Some l'
      else match list_remove x l' with
           | Some r => Some (y :: r)
           | None => None
           end
  end.

Section MappingHandler.
(** The kind of sub-handler is opaque to the methods modelled here. *)
Variable InputEventHandler : Type.

Record MappingHandler : Type := mkMappingHandler {
  mapping : Mapping;
  input_events : list InputEvent;
  _sub_handler : option InputEventHandler
}.

(** [__init__(self, combination, mapping, **_)] *)
Definition MappingHandler_init (combination : EventCombination)
    (mapping : Mapping) : MappingHandler :=
  let new_combination :=
    map (fun event =>
           if negb (value event =? 0)
           then modify event None None None None None as_key
           else event)
        combination in
  mkMappingHandler mapping new_combination None.

(** [set_sub_handler] *)
Definition set_sub_handler (self : MappingHandler)
    (handler : InputEventHandler) : MappingHandler :=
  mkMappingHandler (mapping self) (input_events self) (Some handler).

(** [occlude_input_event]: the handler after the call, or the exception
    that leaves it as it was. *)
Definition occlude_input_event (self : MappingHandler) (event : InputEvent)
  : outcome MappingHandler :=
  match input_events self with
  | [] => Raise MappingParsingError
  | _ :: _ =>
      match list_remove event (input_events self) with
      | Some l => Ok (mkMappingHandler (mapping self) l (_sub_handler self))
      | None => Raise ValueError
      end
  end.
End MappingHandler.

Arguments mkMappingHandler {InputEventHandler} _ _ _.
Arguments mapping {InputEventHandler} _.
Arguments input_events {InputEventHandler} _.
Arguments _sub_handler {InputEventHandler} _.
Arguments MappingHandler_init {InputEventHandler} _ _.
Arguments set_sub_handler {InputEventHandler} _ _.
Arguments occlude_input_event {InputEventHandler} _ _.

(** ** preset.py *)

(** [common_data(list1, list2)], with [eq] for the items' [==]. *)
Fixpoint common_data {A B : Type} (eq : A -> B -> bool)
    (list1 : list A) (list2 : list B) : list A :=
  match list1 with
  | [] => []
  | x :: rest =>
      flat_map (fun y => if eq x y then [x] else []) list2
      ++ common_data eq rest list2
  end.

Definition Path : Type := String.string.

(** The JSON object [save] dumps: canonical combination string to the
    mapping's remaining fields. *)
Definition Json : Type := dict (list (Z * Z * Z)) MappingDict.

(** What the methods do to the file system, in the order it happens:
    [touch(path)] of inputremapper/configs/paths.py, which is not among the
    sources and is kept as an opaque call, and the [open(path, "w")] with
    its [json.dump] and trailing newline. *)
Inductive IOEvent : Type :=
| IOTouch (path : Path)
| IOWrite (path : Path) (content : Json).

Definition MappingsDict : Type := dict EventCombination Mapping.

(** [class Preset]; [_mapping_factory] is only used by [load]. *)
Record Preset : Type := mkPreset {
  _mappings : MappingsDict;
  _saved_mappings : MappingsDict;
  _path : option Path
}.

Abbreviation mget := (@dict_get EventCombination Mapping EventCombination_eqb).
Abbreviation mmem := (@dict_mem EventCombination Mapping EventCombination_eqb).
Abbreviation mset := (@dict_set EventCombination Mapping EventCombination_eqb).
Abbreviation mpop := (@dict_pop EventCombination Mapping EventCombination_eqb).
Abbreviation mwf := (@dict_wf EventCombination Mapping EventCombination_eqb).

(** [__init__(self, path=None, mapping_factory=Mapping)] *)
Definition Preset_init (path : option Path) : Preset :=
  mkPreset [] [] path.

(** [__iter__]: the Mapping objects, in the dict's order. *)
Definition Preset_iter (self : Preset) : list Mapping :=
  dict_values (_mappings self).

(** [__len__] *)
Definition Preset_len (self : Preset) : nat := length (_mappings self).

(** [has_unsaved_changes] *)
Definition has_unsaved_changes (self : Preset) : bool :=
  negb (dict_eqb EventCombination_eqb Mapping_eqb
                 (_mappings self) (_saved_mappings self)).

(** [remove(combination)]: the preset afterwards and, when a mapping was
    popped, that mapping as the call leaves it.  The argument is an
    EventCombination by its type, so the TypeError cannot occur. *)
Definition remove (self : Preset) (combination : EventCombination)
  : Preset * option Mapping :=
  let combination' :=
    match find (fun permutation => mmem permutation (_mappings self))
               (get_permutations combination) with
    | Some permutation => permutation
    | None => combination
    end in
  match mpop combination' (_mappings self) with
  | Some (mapping, rest) =>
      (mkPreset rest (_saved_mappings self) (_path self),
       Some (remove_combination_changed_callback mapping))
  | None => (self, None)
  end.

(** [add(mapping)]: the outcome and the preset afterwards. *)
Definition add (self : Preset) (mapping : Mapping) : outcome unit * Preset :=
  match event_combination mapping with
  | NotACombination => (Raise AttributeError, self)
  | Combination c =>
      if existsb (fun permutation => mmem permutation (_mappings self))
                 (get_permutations c)
      then (Raise KeyError, self)
      else
        let mapping' :=
          set_combination_changed_callback mapping PresetCombinationChanged in
        (Ok tt,
         mkPreset (mset c mapping' (_mappings self))
                  (_saved_mappings self) (_path self))
  end.

(** [empty()] *)
Definition empty (self : Preset) : Preset :=
  mkPreset [] (_saved_mappings self) (_path self).

(** [clear()]: with the path set to [None] there is nothing to read the
    saved mappings from. *)
Definition clear (self : Preset) : Preset :=
  mkPreset [] [] None.

(** What one round of [save]'s loop does with a mapping: [continue], or
    reach the lines that record it under its combination. *)
Inductive Visit : Type :=
| Skipped
| Written (combination : EventCombination) (d : MappingDict) (saved : Mapping).

(** The body of [for mapping in self] in [save]; [self_mappings] is what
    iterating [self] yields.  A mapping that reaches [combination.json_str()]
    with something that is no EventCombination raises there. *)
Definition save_visit (self_mappings : list Mapping) (mapping : Mapping)
  : outcome Visit :=
  let record :=
    match event_combination mapping with
    | Combination combination =>
        Ok (Written combination (Mapping_dict_rest mapping)
              (remove_combination_changed_callback (Mapping_copy mapping)))
    | NotACombination => Raise AttributeError
    end in
  if negb (is_valid mapping) then
    match event_combination mapping with
    | NotACombination => Ok Skipped
    | Combination c =>
        let combinations := map event_combination self_mappings in
        let common :=
          common_data combination_matches (get_permutations c) combinations in
        if (1 <? length common)%nat then Ok Skipped else record
    end
  else record.

Fixpoint save_loop (self_mappings todo : list Mapping)
    (json_ready : Json) (saved_mappings : MappingsDict)
  : outcome (Json * MappingsDict) :=
  match todo with
  | [] => Ok (json_ready, saved_mappings)
  | mapping :: rest =>
      match save_visit self_mappings mapping with
      | Raise e => Raise e
      | Ok Skipped => save_loop self_mappings rest json_ready saved_mappings
      | Ok (Written combination d saved) =>
          save_loop self_mappings rest
            (dict_set json_key_eqb (json_str combination) d json_ready)
            (mset combination saved saved_mappings)
      end
  end.

(** [not self.path] *)
Definition path_unset (p : option Path) : bool :=
  match p with
  | None => true
  | Some s => String.eqb s String.EmptyString
  end.

(** [save()]: the outcome, the preset afterwards, and the file-system
    events of the call. *)
Definition save (self : Preset) : outcome unit * Preset * list IOEvent :=
  match _path self with
  | None => (Ok tt, self, [])
  | Some path =>
      if path_unset (_path self) then (Ok tt, self, [])
      else if negb (has_unsaved_changes self) then (Ok tt, self, [IOTouch path])
      else
        match save_loop (Preset_iter self) (Preset_iter self) [] [] with
        | Raise e => (Raise e, self, [IOTouch path])
        | Ok (json_ready, saved_mappings) =>
            (Ok tt,
             mkPreset (_mappings self) saved_mappings (_path self),
             [IOTouch path; IOWrite path json_ready])
        end
  end.

(** [is_valid()] of the preset. *)
Definition Preset_is_valid (self : Preset) : bool :=
  forallb is_valid (Preset_iter self).

(** The [for permutation in ...] loop of [get_mapping]: the first
    permutation under which something is stored decides. *)
Fixpoint first_existing (d : MappingsDict)
    (permutations : list EventCombination) : option Mapping :=
  match permutations with
  | [] => None
  | permutation :: rest =>
      match mget permutation d with
      | Some existing => Some existing
      | None => first_existing d rest
      end
  end.

(** [get_mapping(combination)]; [None] and the empty tuple are falsy.  The
    argument is an Optional[EventCombination] by its type, so the TypeError
    cannot occur. *)
Definition get_mapping (self : Preset) (combination : option EventCombination)
  : option Mapping :=
  match combination with
  | None => None
  | Some [] => None
  | Some c => first_existing (_mappings self) (get_permutations c)
  end.

(** [_combination_changed_callback(new, old)] *)
Definition _combination_changed_callback (self : Preset)
    (new old : EventCombination) : outcome unit * Preset :=
  if existsb (fun permutation =>
                mmem permutation (_mappings self)
                && negb (EventCombination_eqb permutation old))
             (get_permutations new)
  then (Raise KeyError, self)
  else
    match mpop old (_mappings self) with
    | None => (Raise KeyError, self)
    | Some (mapping, rest) =>
        (Ok tt,
         mkPreset (mset new mapping rest) (_saved_mappings self) (_path self))
    end.

(** ** Notions the statements below are phrased in *)

(** Two combinations are the same trigger when one is a permutation of the
    other, events being identified as [==] identifies them. *)
Definition same_trigger (a b : EventCombination) : Prop :=
  Permutation (key_of a) (key_of b).

(** The spec's invariant of a Preset: it never holds two mappings whose
    combinations are permutations of each other. *)
Fixpoint no_permuted_keys (d : MappingsDict) : Prop :=
  match d with
  | [] => True
  | (k, _) :: d' =>
      (forall k', In k' (dict_keys d') -> ~ same_trigger k k')
      /\ no_permuted_keys d'
  end.

(** Every mapping is filed under its own combination. *)
Definition keyed_by_combination (d : MappingsDict) : Prop :=
  forall k m, In (k, m) d -> combination_matches k (event_combination m) = true.

(** [y] is one of the permutations of [c]. *)
Definition matches_a_permutation (c : EventCombination) (y : CombinationField)
  : bool :=
  existsb (fun x => combination_matches x y) (get_permutations c).

(** How many of the mappings have a combination in [c]'s permutation
    class. *)
Definition occupants (c : EventCombination) (ms : list Mapping) : nat :=
  length (filter (matches_a_permutation c) (map event_combination ms)).

(** The combination a mapping carries, for mappings that carry one. *)
Definition combination_of (m : Mapping) : EventCombination :=
  match event_combination m with
  | Combination c => c
  | NotACombination => []
  end.

(** What [save] records of a dict none of whose mappings it skips: every
    mapping's copy, callback removed, under the mapping's combination. *)
Definition snapshot (d : MappingsDict) : MappingsDict :=
  map (fun km => (combination_of (snd km),
                  remove_combination_changed_callback (Mapping_copy (snd km))))
      d.

(** ** Sample data *)

Definition KEY_LEFTCTRL_down : InputEvent := mkInputEvent 0 0 EV_KEY 29 1 none.
Definition KEY_A_down : InputEvent := mkInputEvent 0 0 EV_KEY 30 1 none.
Definition KEY_S_down : InputEvent := mkInputEvent 0 0 EV_KEY 31 1 none.

Definition sample_path : Path := "/home/user/.config/input-remapper/presets/kbd/new preset.json"%string.

(** Ctrl+A mapped to "b". *)
Definition ctrl_a : Mapping :=
  mkMapping (Combination [KEY_LEFTCTRL_down; KEY_A_down]) (Some "b"%string)
            true None.

(** A key disabled by leaving its output empty: not valid, but alone in
    its permutation class. *)
Definition disabled_s : Mapping :=
  mkMapping (Combination [KEY_S_down]) None false None.

(** A mapping under edit whose event_combination is no EventCombination. *)
Definition broken : Mapping := mkMapping NotACombination None false None.

Definition sample_preset : Preset :=
  snd (add (snd (add (Preset_init (Some sample_path)) ctrl_a)) disabled_s).

(** A mapping without output whose combination names Ctrl twice. *)
Definition ctrl_ctrl_s : Mapping :=
  mkMapping (Combination [KEY_LEFTCTRL_down; KEY_LEFTCTRL_down; KEY_S_down])
            None false None.

Definition preset_with_repeated_event : Preset :=
  mkPreset [([KEY_LEFTCTRL_down; KEY_LEFTCTRL_down; KEY_S_down], ctrl_ctrl_s)]
           [] (Some sample_path).

Definition preset_with_broken_mapping : Preset :=
  mkPreset [([KEY_A_down], broken)] [] (Some sample_path).


(** ** input_event.py: the constructors

    A Python str is kept as a Rocq string, one character per item;
    characters above U+00FF are outside the model. *)

(** [str(n)] for an int: the decimal numeral, with [-] for a negative
    number and no leading zero. *)
Definition py_str (n : Z) : string :=
  DecimalString.NilZero.string_of_int (Z.to_int n).

(** [s.split(sep)] for a separator of one character. *)
Fixpoint split_on (sep : Ascii.ascii) (s : string) : list string :=
  match s with
  | EmptyString => [EmptyString]
  | String c s' =>
      if Ascii.eqb c sep then EmptyString :: split_on sep s'
      else match split_on sep s' with
           | piece :: pieces => String c piece :: pieces
           | [] => [String c EmptyString]
           end
  end.

(** [sep.join(pieces)] *)
Fixpoint join (sep : string) (pieces : list string) : string :=
  match pieces with
  | [] => EmptyString
  | [piece] => piece
  | piece :: rest => String.append piece (String.append sep (join sep rest))
  end.

(** No character of [s] is a comma. *)
Definition comma_free (s : string) : Prop :=
  forall c, In c (list_ascii_of_string s) -> c <> ","%char.

(** [InputEvent.json_str] *)
Definition InputEvent_json_str (self : InputEvent) : string :=
  join ","%string [py_str (type self); py_str (code self); py_str (value self)].

(** An item of a tuple handed to [from_tuple], as far as [int(item)]
    distinguishes it: an int, a str, or an object [int] raises TypeError
    on.  Floats and other numbers are outside the model. *)
Inductive PyItem : Type :=
| ItemInt (n : Z)
| ItemStr (s : string)
| ItemOther.

(** What [validate] and the three constructors can be handed: an
    InputEvent, an evdev.InputEvent, a str, a tuple or list, or an object
    with neither [sec], [split] nor [len]. *)
Inductive InitArg : Type :=
| ArgInputEvent (e : InputEvent)
| ArgEvdevEvent (esec eusec etype ecode evalue : Z)
| ArgStr (s : string)
| ArgTuple (items : list PyItem)
| ArgOther.

Section Constructors.
(** The builtin [int] on a str; [None] stands for its ValueError. *)
Variable py_int : string -> option Z.

Definition int_of_item (item : PyItem) : option Z :=
  match item with
  | ItemInt n => Some n
  | ItemStr s => py_int s
  | ItemOther => None
  end.

(** [from_event]; [None] stands for the InputEventCreationError, here and
    in the next two. *)
Definition from_event (event : InitArg) : option InputEvent :=
  match event with
  | ArgInputEvent e =>
      Some (mkInputEvent (sec e) (usec e) (type e) (code e) (value e) none)
  | ArgEvdevEvent s u t c v => Some (mkInputEvent s u t c v none)
  | _ => None
  end.

(** [from_string] *)
Definition from_string (string : InitArg) : option InputEvent :=
  match string with
  | ArgStr s =>
      match split_on ","%char s with
      | [t; c; v] =>
          match py_int t with
          | None => None
          | Some t' =>
              match py_int c with
              | None => None
              | Some c' =>
                  match py_int v with
                  | None => None
                  | Some v' => Some (mkInputEvent 0 0 t' c' v' none)
                  end
              end
          end
      | _ => None
      end
  | _ => None
  end.

(** The three [int(event_tuple[i])] of [from_tuple]. *)
Definition from_items (a b c : PyItem) : option InputEvent :=
  match int_of_item a with
  | None => None
  | Some t =>
      match int_of_item b with
      | None => None
      | Some c' =>
          match int_of_item c with
          | None => None
          | Some v => Some (mkInputEvent 0 0 t c' v none)
          end
      end
  end.

(** [from_tuple]; a str has a length and items too. *)
Definition from_tuple (event_tuple : InitArg) : option InputEvent :=
  match event_tuple with
  | ArgTuple [a; b; c] => from_items a b c
  | ArgStr (String a (String b (String c EmptyString))) =>
      from_items (ItemStr (String a EmptyString))
                 (ItemStr (String b EmptyString))
                 (ItemStr (String c EmptyString))
  | _ => None
  end.

(** [validate] *)
Definition validate (init_arg : InitArg) : outcome InputEvent :=
  match init_arg with
  | ArgInputEvent e => Ok e
  | _ =>
      match from_event init_arg with
      | Some event => Ok event
      | None =>
          match from_string init_arg with
          | Some event => Ok event
          | None =>
              match from_tuple init_arg with
              | Some event => Ok event
              | None => Raise ValueError
              end
          end
      end
  end.
End Constructors.

(** A reader of decimal numerals, one function that does what is asked of
    [int] below. *)
Definition decimal_int (s : string) : option Z :=
  option_map Z.of_int (DecimalString.NilZero.int_of_string s).

(** ** keymapper/dev/keycode_mapper.py *)

Section KeycodeMapper.
(** The macro objects are opaque to [handle_keycode]. *)
Variable Macro : Type.
(** [evdev.ecodes.EV], the library's table from event types to their
    names; the library is not among the sources. *)
Variable EV : dict Z string.

(** What [handle_keycode] does to the outside, in the order it happens:
    [asyncio.ensure_future(macro.run())], [uinput.write(type, code, value)]
    and [uinput.syn()]. *)
Inductive Effect : Type :=
| EnsureFuture (macro : Macro)
| UWrite (t c v : Z)
| USyn.

(** [handle_keycode(code_code_mapping, macros, event, uinput)]: what the
    call does, or the exception it ends with.  The only thing that can
    raise is the log line of a mapped code, which looks the event's type up
    in [evdev.ecodes.EV] before anything is written. *)
Definition handle_keycode (code_code_mapping : dict Z Z)
    (macros : dict Z Macro) (event : InputEvent) : outcome (list Effect) :=
  if value event =? 2 then Ok []
  else
    let input_keycode := code event in
    let input_type := type event in
    match dict_get Z.eqb input_keycode macros with
    | Some macro =>
        if negb (value event =? 1) then Ok [] else Ok [EnsureFuture macro]
    | None =>
        match dict_get Z.eqb input_keycode code_code_mapping with
        | Some target_keycode =>
            match dict_get Z.eqb (type event) EV with
            | None => Raise KeyError
            | Some _ => Ok [UWrite EV_KEY target_keycode (value event); USyn]
            end
        | None => Ok [UWrite input_type input_keycode (value event); USyn]
        end
    end.

(** [handle_keycode] called on each event of a stream in turn, up to the
    first call that raises: what was done, and how it ended. *)
Fixpoint handle_keycodes (code_code_mapping : dict Z Z)
    (macros : dict Z Macro) (events : list InputEvent)
  : list Effect * outcome unit :=
  match events with
  | [] => ([], Ok tt)
  | event :: rest =>
      match handle_keycode code_code_mapping macros event with
      | Raise e => ([], Raise e)
      | Ok done =>
          let later := handle_keycodes code_code_mapping macros rest in
          (done ++ fst later, snd later)
      end
  end.

Definition is_macro_run (e : Effect) : bool :=
  match e with
  | EnsureFuture _ => true
  | _ => false
  end.

(** The [(type, code, value)] written to uinput, in order. *)
Fixpoint written (trace : list Effect) : list (Z * Z * Z) :=
  match trace with
  | [] => []
  | UWrite t c v :: rest => (t, c, v) :: written rest
  | _ :: rest => written rest
  end.

(** An event [handle_keycode] passes on to uinput: no hold, and no macro
    under its code. *)
Definition reaches_uinput (macros : dict Z Macro) (event : InputEvent)
  : bool :=
  negb (value event =? 2) && negb (dict_mem Z.eqb (code event) macros).

(** An event whose call raises: it would be passed on, its code is
    mapped, and its type has no name in the table. *)
Definition unnamed_type_of_mapped_code (code_code_mapping : dict Z Z)
    (macros : dict Z Macro) (event : InputEvent) : bool :=
  reaches_uinput macros event
  && dict_mem Z.eqb (code event) code_code_mapping
  && negb (dict_mem Z.eqb (type event) EV).

(** The events of a stream up to the first one whose call raises. *)
Fixpoint handled_events (code_code_mapping : dict Z Z)
    (macros : dict Z Macro) (events : list InputEvent) : list InputEvent :=
  match events with
  | [] => []
  | event :: rest =>
      if unnamed_type_of_mapped_code code_code_mapping macros event then []
      else event :: handled_events code_code_mapping macros rest
  end.
End KeycodeMapper.

(** What an event that is passed on is written as. *)
Definition output_of (code_code_mapping : dict Z Z) (event : InputEvent)
  : Z * Z * Z :=
  match dict_get Z.eqb (code event) code_code_mapping with
  | Some target_keycode => (EV_KEY, target_keycode, value event)
  | None => (type event, code event, value event)
  end.

(** The macro a key-down starts, if its code has one. *)
Definition macro_started {Macro : Type} (macros : dict Z Macro)
    (event : InputEvent) : list Macro :=
  if value event =? 1 then
    match dict_get Z.eqb (code event) macros with
    | Some macro => [macro]
    | None => []
    end
  else [].

Arguments EnsureFuture {Macro} macro.
Arguments UWrite {Macro} t c v.
Arguments USyn {Macro}.
Arguments handle_keycode {Macro} _ _ _ _.
Arguments handle_keycodes {Macro} _ _ _ _.
Arguments is_macro_run {Macro} _.
Arguments written {Macro} _.
Arguments reaches_uinput {Macro} _ _.
Arguments unnamed_type_of_mapped_code {Macro} _ _ _ _.
Arguments handled_events {Macro} _ _ _ _.

(** ** A wrapping handler claiming its events *)

(** [occlude_input_event] called for each event in turn, as the source
    asks of a wrapping handler for the events of its own combination; the
    first exception ends it. *)
Fixpoint occlude_all {InputEventHandler : Type}
    (h : @MappingHandler InputEventHandler) (events : list InputEvent)
  : outcome (@MappingHandler InputEventHandler) :=
  match events with
  | [] => Ok h
  | event :: rest =>
      match occlude_input_event h event with
      | Ok h' => occlude_all h' rest
      | Raise e => Raise e
      end
  end.

(** ** Sequences of edits of a Preset *)




(** The JSON object [save] dumps for a dict none of whose mappings it
    skips. *)
Definition json_of (d : MappingsDict) : Json :=
  map (fun km => (json_str (combination_of (snd km)),
                  Mapping_dict_rest (snd km))) d.

(** * Properties *)

(** ** Equality of events and of combinations *)

Lemma tuple3_eqb_eq (a b : Z * Z * Z) : tuple3_eqb a b = true <-> a = b.
Proof.
  destruct a as [[t1 c1] v1], b as [[t2 c2] v2]; simpl.
  rewrite !andb_true_iff, !Z.eqb_eq.
  split.
  - intros [[-> ->] ->]; reflexivity.
  - intros H; inversion H; auto.
Qed.

Lemma InputEvent_eqb_eq (a b : InputEvent) :
  InputEvent_eqb a b = true <-> event_tuple a = event_tuple b.
Proof. unfold InputEvent_eqb, __eq__. apply tuple3_eqb_eq. Qed.

Lemma InputEvent_eqb_refl (a : InputEvent) : InputEvent_eqb a a = true.
Proof. apply InputEvent_eqb_eq; reflexivity. Qed.

Lemma EventCombination_eqb_eq (a b : EventCombination) :
  EventCombination_eqb a b = true <-> key_of a = key_of b.
Proof.
  revert b; induction a as [|x a IH]; intros [|y b]; simpl;
    try (split; intros H; (reflexivity || discriminate H)).
  rewrite andb_true_iff, IH, InputEvent_eqb_eq.
  split.
  - intros [-> ->]; reflexivity.
  - intros H. split.
    + exact (f_equal (hd (event_tuple x)) H).
    + exact (f_equal (@tl _) H).
Qed.

Lemma EventCombination_eqb_refl (a : EventCombination) :
  EventCombination_eqb a a = true.
Proof. apply EventCombination_eqb_eq; reflexivity. Qed.

Lemma EventCombination_eqb_sym (a b : EventCombination) :
  EventCombination_eqb a b = EventCombination_eqb b a.
Proof.
  apply eq_true_iff_eq. rewrite !EventCombination_eqb_eq.
  split; intros H; symmetry; exact H.
Qed.

Lemma EventCombination_eqb_trans (a b c : EventCombination) :
  EventCombination_eqb a b = true -> EventCombination_eqb b c = true ->
  EventCombination_eqb a c = true.
Proof. rewrite !EventCombination_eqb_eq. congruence. Qed.

(** Equal keys are interchangeable on either side of [==]. *)
Lemma EventCombination_eqb_key_l (a a' b : EventCombination) :
  key_of a = key_of a' -> EventCombination_eqb a b = EventCombination_eqb a' b.
Proof.
  intros H. apply eq_true_iff_eq. rewrite !EventCombination_eqb_eq, H.
  reflexivity.
Qed.

Lemma EventCombination_eqb_key_r (a b b' : EventCombination) :
  key_of b = key_of b' -> EventCombination_eqb a b = EventCombination_eqb a b'.
Proof.
  intros H. apply eq_true_iff_eq. rewrite !EventCombination_eqb_eq, H.
  reflexivity.
Qed.

Lemma EventActions_eqb_eq (a b : EventActions) :
  EventActions_eqb a b = true <-> a = b.
Proof. destruct a, b; simpl; split; congruence. Qed.

(** ** InputEvent *)

(** C8. Two InputEvents are [==] exactly when their (type, code, value)
    triples are the same, and the hash is a function of that triple alone:
    re-stamping an event with any other sec, usec and action tag changes
    neither what it is equal to nor its hash. *)
Theorem InputEvent_identity_is_event_tuple
    (py_hash : Z * Z * Z -> Z) (a b : InputEvent) :
  (InputEvent_eqb a b = true <-> event_tuple a = event_tuple b)
  /\ __hash__ py_hash a = py_hash (event_tuple a)
  /\ forall s u act s' u' act',
       let a' := mkInputEvent s u (type a) (code a) (value a) act in
       let b' := mkInputEvent s' u' (type b) (code b) (value b) act' in
       InputEvent_eqb a' b' = InputEvent_eqb a b
       /\ __hash__ py_hash a' = __hash__ py_hash a.
Proof.
  split; [apply InputEvent_eqb_eq|].
  split; [reflexivity|].
  intros; split; reflexivity.
Qed.

(** C10. [modify] copies every field it is not given, and since
    [EventActions.none] is what "not given" looks like for the action, the
    result's tag is [none] only when no tag was given and the event had
    none: a tag that is set survives every call of [modify]. *)
Theorem modify_keeps_fields_not_given
    (e : InputEvent) (s u t c v : option Z) (act : EventActions) :
  sec (modify e None u t c v act) = sec e
  /\ usec (modify e s None t c v act) = usec e
  /\ type (modify e s u None c v act) = type e
  /\ code (modify e s u t None v act) = code e
  /\ value (modify e s u t c None act) = value e
  /\ action (modify e s u t c v none) = action e
  /\ (action (modify e s u t c v act) = none
      <-> act = none /\ action e = none).
Proof.
  repeat (split; [reflexivity|]).
  unfold modify; simpl.
  destruct act; simpl; split; intros H;
    try discriminate; try (destruct H; discriminate); auto.
  destruct H; assumption.
Qed.

(** ** MappingHandler *)

Lemma is_key_event_iff (e : InputEvent) :
  is_key_event e = true <-> type e = EV_KEY \/ action e = as_key.
Proof.
  unfold is_key_event.
  rewrite orb_true_iff, Z.eqb_eq, EventActions_eqb_eq. reflexivity.
Qed.

(** C9. The handler stores the combination event by event: an event with
    value 0 as it is, any other one with the as_key tag (and nothing else
    changed), so every stored event with a nonzero value is a key event;
    and [is_key_event] holds exactly for type EV_KEY or tag as_key. *)
Theorem init_tags_nonzero_events_as_key
    (InputEventHandler : Type) (combination : EventCombination)
    (m : Mapping) :
  let h := @MappingHandler_init InputEventHandler combination m in
  input_events h
  = map (fun e => if value e =? 0 then e
                  else mkInputEvent (sec e) (usec e) (type e) (code e)
                         (value e) as_key) combination
  /\ Forall (fun e => value e <> 0 ->
                      action e = as_key /\ is_key_event e = true)
            (input_events h)
  /\ (forall e, is_key_event e = true
                <-> type e = EV_KEY \/ action e = as_key).
Proof.
  simpl. split; [|split].
  - apply map_ext. intros e. destruct (value e =? 0); reflexivity.
  - apply Forall_forall. intros e He.
    apply in_map_iff in He. destruct He as [x [<- _]].
    destruct (value x =? 0) eqn:E; simpl.
    + apply Z.eqb_eq in E. intros Hx. contradiction.
    + intros _. split; [reflexivity|].
      apply is_key_event_iff. right. reflexivity.
  - apply is_key_event_iff.
Qed.

Lemma list_remove_None (e : InputEvent) (l : list InputEvent) :
  list_remove e l = None <-> forall x, In x l -> InputEvent_eqb x e = false.
Proof.
  induction l as [|y l IH]; simpl.
  - split; [intros _ x []|reflexivity].
  - destruct (InputEvent_eqb y e) eqn:E.
    + split; [discriminate|].
      intros H. rewrite (H y (or_introl eq_refl)) in E. discriminate.
    + destruct (list_remove e l) as [l0|].
      * split; [discriminate|].
        intros H. assert (Some l0 = None) as H0; [|discriminate].
        apply IH. intros x Hx. apply H. right. exact Hx.
      * split; [|reflexivity].
        intros _ x [<-|Hx]; [exact E|]. apply (proj1 IH eq_refl); auto.
Qed.

(** [list.remove] takes out the first item equal to the argument and
    nothing else. *)
Lemma list_remove_Some (e : InputEvent) (l r : list InputEvent) :
  list_remove e l = Some r <->
  exists l1 x l2, l = l1 ++ x :: l2 /\ r = l1 ++ l2
                  /\ InputEvent_eqb x e = true
                  /\ forall y, In y l1 -> InputEvent_eqb y e = false.
Proof.
  revert r; induction l as [|y l IH]; intros r; simpl.
  - split; [discriminate|].
    intros (l1 & x & l2 & H & _). destruct l1; discriminate.
  - destruct (InputEvent_eqb y e) eqn:E.
    + split.
      * intros H; inversion H; subst. exists [], y, r. simpl; auto.
        repeat split; auto. intros ? [].
      * intros (l1 & x & l2 & H & -> & Hx & Hl1).
        destruct l1 as [|z l1]; simpl in H; inversion H; subst; [reflexivity|].
        rewrite (Hl1 z (or_introl eq_refl)) in E. discriminate.
    + split.
      * destruct (list_remove e l) as [r'|]; [|discriminate].
        intros H; inversion H; subst.
        destruct (proj1 (IH r') eq_refl) as (l1 & x & l2 & -> & -> & Hx & Hl1).
        exists (y :: l1), x, l2. repeat split; auto.
        intros z [<-|Hz]; auto.
      * intros (l1 & x & l2 & H & -> & Hx & Hl1).
        destruct l1 as [|z l1]; simpl in H; inversion H; subst.
        { rewrite Hx in E; discriminate. }
        assert (list_remove e (l1 ++ x :: l2) = Some (l1 ++ l2)) as ->.
        { apply IH. exists l1, x, l2. repeat split; auto.
          intros w Hw. apply Hl1. right. exact Hw. }
        reflexivity.
Qed.

(** What [occlude_input_event] does in each of its three cases: nothing
    is watched; something is watched but not the event; the event is
    watched. *)
Lemma occlude_input_event_cases
    (InputEventHandler : Type) (h : @MappingHandler InputEventHandler)
    (e : InputEvent) :
  (input_events h = [] -> occlude_input_event h e = Raise MappingParsingError)
  /\ (input_events h <> [] ->
      (forall x, In x (input_events h) -> InputEvent_eqb x e = false) ->
      occlude_input_event h e = Raise ValueError)
  /\ (forall l1 x l2,
        input_events h = l1 ++ x :: l2 -> InputEvent_eqb x e = true ->
        (forall y, In y l1 -> InputEvent_eqb y e = false) ->
        occlude_input_event h e
        = Ok (mkMappingHandler (mapping h) (l1 ++ l2) (_sub_handler h))).
Proof.
  unfold occlude_input_event. split; [|split].
  - intros ->. reflexivity.
  - intros Hne Hall. apply list_remove_None in Hall. rewrite Hall.
    destruct (input_events h); [contradiction|reflexivity].
  - intros l1 x l2 Hl Hx Hl1.
    assert (list_remove e (input_events h) = Some (l1 ++ l2)) as ->.
    { apply list_remove_Some. exists l1, x, l2. auto. }
    rewrite Hl. destruct l1; reflexivity.
Qed.

(** C1. Code against claim: a handler that watches KEY_A down is asked to
    occlude KEY_S down, which it does not watch.  The guard only tests
    whether the list is empty, so the call reaches [list.remove] and fails
    with its ValueError, not with MappingParsingError. *)
Theorem occlude_unwatched_event_raises_ValueError :
  let watched := mkInputEvent 0 0 EV_KEY 30 1 as_key in
  let other := mkInputEvent 0 0 EV_KEY 31 1 as_key in
  let h := @mkMappingHandler unit
             (mkMapping (Combination [watched]) None true None)
             [watched] None in
  occlude_input_event h other = Raise ValueError
  /\ occlude_input_event h other <> Raise MappingParsingError.
Proof. simpl. split; [reflexivity|discriminate]. Qed.

(** ** Enumerating permutations *)

Lemma NoDup_flat_map {A B : Type} (f : A -> list B) (s : list A) :
  (forall x, In x s -> NoDup (f x)) ->
  (forall s1 x s2 y z, s = s1 ++ x :: s2 -> In y s2 ->
                       In z (f x) -> ~ In z (f y)) ->
  NoDup (flat_map f s).
Proof.
  induction s as [|a s IH]; intros Hf Hd; simpl; [constructor|].
  apply NoDup_app.
  - apply Hf. left; reflexivity.
  - apply IH.
    + intros x Hx. apply Hf. right; exact Hx.
    + intros s1 x s2 y z -> Hy. apply (Hd (a :: s1) x s2 y z); auto.
  - intros z Hz Hz'. apply in_flat_map in Hz'. destruct Hz' as [y [Hy Hzy]].
    apply (Hd [] a s y z); auto.
Qed.

Lemma NoDup_map_cons {A : Type} (x : A) (L : list (list A)) :
  NoDup L -> NoDup (map (cons x) L).
Proof.
  induction 1 as [|r L Hr HL IH]; simpl; constructor; [|exact IH].
  intros Hin. apply in_map_iff in Hin. destruct Hin as [r' [E Hin]].
  inversion E; subst. contradiction.
Qed.

Section Permutations.
Context {A : Type}.

Lemma selections_fst (l : list A) : map fst (selections l) = l.
Proof.
  induction l as [|x l IH]; simpl; [reflexivity|].
  f_equal. rewrite map_map. rewrite <- IH at 2.
  apply map_ext. reflexivity.
Qed.

Lemma selections_Permutation (l : list A) (y : A) (ys : list A) :
  In (y, ys) (selections l) -> Permutation l (y :: ys).
Proof.
  revert y ys; induction l as [|x l IH]; intros y ys; simpl; [intros []|].
  intros [H|H].
  - inversion H; subst. apply Permutation_refl.
  - apply in_map_iff in H. destruct H as [[z zs] [Hz Hin]].
    simpl in Hz. inversion Hz; subst.
    apply Permutation_trans with (x :: y :: zs).
    + apply perm_skip. apply IH. exact Hin.
    + apply perm_swap.
Qed.

Lemma In_selections (l : list A) (y : A) :
  In y l -> exists ys, In (y, ys) (selections l).
Proof.
  intros H. rewrite <- (selections_fst l) in H.
  apply in_map_iff in H. destruct H as [[z zs] [Hz Hin]].
  simpl in Hz; subst. exists zs. exact Hin.
Qed.

Lemma In_permutations_of_length (n : nat) (l l' : list A) :
  length l = n ->
  (In l' (permutations_of_length n l) <-> Permutation l l').
Proof.
  revert l l'; induction n as [|n IH]; intros l l' Hlen; simpl.
  - destruct l; [|discriminate]. split.
    + intros [<-|[]]. apply Permutation_refl.
    + intros H. apply Permutation_nil in H. left. symmetry. exact H.
  - rewrite in_flat_map. split.
    + intros [[x rest] [Hsel Hin]]. simpl in Hin.
      apply in_map_iff in Hin. destruct Hin as [r [<- Hr]].
      pose proof (selections_Permutation _ _ _ Hsel) as HP.
      apply Permutation_trans with (x :: rest); [exact HP|].
      apply perm_skip. apply IH; [|exact Hr].
      apply Permutation_length in HP. simpl in HP. lia.
    + intros HP. destruct l' as [|x r].
      { apply Permutation_length in HP. simpl in HP. lia. }
      assert (In x l) as Hx.
      { apply Permutation_in with (x :: r);
          [apply Permutation_sym; exact HP|left; reflexivity]. }
      destruct (In_selections _ _ Hx) as [rest Hsel].
      exists (x, rest). split; [exact Hsel|]. simpl.
      apply in_map. pose proof (selections_Permutation _ _ _ Hsel) as HP'.
      apply IH.
      * apply Permutation_length in HP'. simpl in HP'. lia.
      * apply Permutation_cons_inv with x.
        apply Permutation_trans with l; [apply Permutation_sym; exact HP'|].
        exact HP.
Qed.

Lemma NoDup_permutations_of_length (n : nat) (l : list A) :
  NoDup l -> NoDup (permutations_of_length n l).
Proof.
  revert l; induction n as [|n IH]; intros l Hl; simpl.
  - constructor; [intros []|constructor].
  - apply NoDup_flat_map.
    + intros [x rest] Hsel. simpl.
      apply NoDup_map_cons.
      apply IH. apply selections_Permutation in Hsel.
      apply (Permutation_NoDup Hsel) in Hl.
      inversion Hl; assumption.
    + intros s1 [x rest] s2 [y rest'] z Hs Hy Hzx Hzy. simpl in *.
      apply in_map_iff in Hzx. destruct Hzx as [r [<- _]].
      apply in_map_iff in Hzy. destruct Hzy as [r' [Hr' _]].
      inversion Hr'; subst y.
      assert (NoDup (map fst (selections l))) as Hnd
        by (rewrite selections_fst; exact Hl).
      rewrite Hs, map_app in Hnd. simpl in Hnd.
      apply NoDup_remove_2 in Hnd. apply Hnd.
      apply in_or_app. right.
      change x with (fst (x, rest')). apply in_map. exact Hy.
Qed.
End Permutations.

Lemma selections_map {A B : Type} (f : A -> B) (l : list A) :
  selections (map f l)
  = map (fun p => (f (fst p), map f (snd p))) (selections l).
Proof.
  induction l as [|x l IH]; simpl; [reflexivity|].
  rewrite IH, !map_map. reflexivity.
Qed.

Lemma permutations_of_length_map {A B : Type} (f : A -> B) (n : nat)
    (l : list A) :
  permutations_of_length n (map f l)
  = map (map f) (permutations_of_length n l).
Proof.
  revert l; induction n as [|n IH]; intros l; simpl; [reflexivity|].
  rewrite selections_map, flat_map_concat_map, map_map.
  rewrite flat_map_concat_map, concat_map, map_map.
  f_equal. apply map_ext. intros [x rest]. simpl.
  rewrite IH, !map_map. reflexivity.
Qed.

(** The enumeration is what the spec asks of [get_permutations]: exactly
    the permutations of the combination. *)
Lemma get_permutations_spec (c c' : EventCombination) :
  In c' (get_permutations c) <-> Permutation c c'.
Proof. apply In_permutations_of_length. reflexivity. Qed.

Lemma get_permutations_keys (c : EventCombination) :
  map key_of (get_permutations c)
  = permutations_of_length (length (key_of c)) (key_of c).
Proof.
  unfold get_permutations, key_of.
  rewrite length_map, permutations_of_length_map. reflexivity.
Qed.

(** Up to [==], a combination is one of the enumerated permutations of
    [c] exactly when it is the same trigger as [c]. *)
Lemma get_permutations_same_trigger (c k : EventCombination) :
  (exists x, In x (get_permutations c) /\ EventCombination_eqb x k = true)
  <-> same_trigger c k.
Proof.
  unfold same_trigger. split.
  - intros [x [Hx Hk]]. apply get_permutations_spec in Hx.
    apply EventCombination_eqb_eq in Hk. rewrite <- Hk.
    apply Permutation_map. exact Hx.
  - intros HP.
    assert (In (key_of k) (map key_of (get_permutations c))) as Hin.
    { rewrite get_permutations_keys.
      apply In_permutations_of_length; [reflexivity|exact HP]. }
    apply in_map_iff in Hin. destruct Hin as [x [Hxk Hx]].
    exists x. split; [exact Hx|]. apply EventCombination_eqb_eq. exact Hxk.
Qed.

Lemma NoDup_get_permutations_keys (c : EventCombination) :
  deduplicated c -> NoDup (map key_of (get_permutations c)).
Proof.
  intros H. rewrite get_permutations_keys.
  apply NoDup_permutations_of_length. exact H.
Qed.

Lemma same_trigger_refl (a : EventCombination) : same_trigger a a.
Proof. apply Permutation_refl. Qed.

Lemma same_trigger_sym (a b : EventCombination) :
  same_trigger a b -> same_trigger b a.
Proof. apply Permutation_sym. Qed.

Lemma same_trigger_trans (a b c : EventCombination) :
  same_trigger a b -> same_trigger b c -> same_trigger a c.
Proof. apply Permutation_trans. Qed.

Lemma same_trigger_key (a b : EventCombination) :
  key_of a = key_of b -> same_trigger a b.
Proof. unfold same_trigger. intros ->. apply Permutation_refl. Qed.

Lemma same_trigger_nil (a b : EventCombination) :
  same_trigger a b -> a = [] -> b = [].
Proof.
  unfold same_trigger. intros H ->. simpl in H.
  apply Permutation_nil in H. destruct b; [reflexivity|discriminate].
Qed.

(** ** The mappings dict *)

Lemma mget_key (k k' : EventCombination) (d : MappingsDict) :
  key_of k = key_of k' -> mget k d = mget k' d.
Proof.
  intros H. induction d as [|[k0 m0] d IH]; simpl; [reflexivity|].
  rewrite (EventCombination_eqb_key_r k0 k k' H), IH. reflexivity.
Qed.

Lemma mget_Some_In (k : EventCombination) (m : Mapping) (d : MappingsDict) :
  mget k d = Some m -> exists k0, In (k0, m) d /\ key_of k0 = key_of k.
Proof.
  induction d as [|[k0 m0] d IH]; simpl; [discriminate|].
  destruct (EventCombination_eqb k0 k) eqn:E.
  - intros H; inversion H; subst. exists k0. split; [left; reflexivity|].
    apply EventCombination_eqb_eq. exact E.
  - intros H. destruct (IH H) as [k1 [Hin Hk]]. exists k1. auto.
Qed.

Lemma mget_None_iff (k : EventCombination) (d : MappingsDict) :
  mget k d = None <->
  forall k0, In k0 (dict_keys d) -> key_of k0 <> key_of k.
Proof.
  induction d as [|[k0 m0] d IH]; simpl.
  - split; [intros _ ? []|reflexivity].
  - destruct (EventCombination_eqb k0 k) eqn:E.
    + split; [discriminate|]. intros H. exfalso.
      apply (H k0); [left; reflexivity|].
      apply EventCombination_eqb_eq. exact E.
    + rewrite IH. split.
      * intros H k1 [<-|Hk1]; [|apply H; exact Hk1].
        intros Hk. apply EventCombination_eqb_eq in Hk. congruence.
      * intros H k1 Hk1. apply H. right. exact Hk1.
Qed.

Lemma mget_In_keys (k : EventCombination) (m : Mapping) (d : MappingsDict) :
  mget k d = Some m ->
  exists k0, In k0 (dict_keys d) /\ key_of k0 = key_of k.
Proof.
  intros H. destruct (mget_Some_In _ _ _ H) as [k0 [Hin Hk]].
  exists k0. split; [|exact Hk].
  change k0 with (fst (k0, m)). apply in_map. exact Hin.
Qed.

Lemma mmem_true_iff (k : EventCombination) (d : MappingsDict) :
  mmem k d = true <->
  exists k0, In k0 (dict_keys d) /\ key_of k0 = key_of k.
Proof.
  unfold dict_mem. destruct (mget k d) as [m|] eqn:E.
  - split; [intros _|reflexivity]. apply (mget_In_keys _ _ _ E).
  - split; [discriminate|]. intros [k0 [Hin Hk]].
    exfalso. exact (proj1 (mget_None_iff k d) E k0 Hin Hk).
Qed.

Lemma mmem_false_iff (k : EventCombination) (d : MappingsDict) :
  mmem k d = false <-> mget k d = None.
Proof.
  unfold dict_mem. destruct (mget k d); split; congruence.
Qed.

Lemma mset_get (k k' : EventCombination) (v : Mapping) (d : MappingsDict) :
  mget k' (mset k v d)
  = if EventCombination_eqb k k' then Some v else mget k' d.
Proof.
  induction d as [|[k0 m0] d IH]; simpl.
  - reflexivity.
  - destruct (EventCombination_eqb k0 k) eqn:E0; simpl.
    + apply EventCombination_eqb_eq in E0.
      rewrite (EventCombination_eqb_key_l k0 k k' E0).
      destruct (EventCombination_eqb k k'); reflexivity.
    + destruct (EventCombination_eqb k0 k') eqn:E1; [|exact IH].
      destruct (EventCombination_eqb k k') eqn:E2; [|reflexivity].
      apply EventCombination_eqb_eq in E1, E2.
      assert (EventCombination_eqb k0 k = true) as E3
        by (apply EventCombination_eqb_eq; congruence).
      congruence.
Qed.

Lemma mset_fresh (k : EventCombination) (v : Mapping) (d : MappingsDict) :
  mget k d = None -> mset k v d = d ++ [(k, v)].
Proof.
  induction d as [|[k0 m0] d IH]; simpl; [reflexivity|].
  destruct (EventCombination_eqb k0 k); [discriminate|].
  intros H. rewrite (IH H). reflexivity.
Qed.

Lemma mpop_None (k : EventCombination) (d : MappingsDict) :
  mpop k d = None <-> mget k d = None.
Proof.
  induction d as [|[k0 m0] d IH]; simpl; [split; reflexivity|].
  destruct (EventCombination_eqb k0 k); [split; discriminate|].
  destruct (mpop k d) as [[r d']|].
  - split; [discriminate|]. intros H. apply IH in H. discriminate.
  - split; [intros _|reflexivity]. apply IH. reflexivity.
Qed.

Lemma mpop_Some (k : EventCombination) (m : Mapping) (d rest : MappingsDict) :
  mpop k d = Some (m, rest) ->
  mget k d = Some m
  /\ (forall k', EventCombination_eqb k k' = false -> mget k' rest = mget k' d)
  /\ (forall k0, In k0 (dict_keys rest) -> In k0 (dict_keys d))
  /\ (mwf d -> mget k rest = None /\ mwf rest).
Proof.
  revert rest; induction d as [|[k0 m0] d IH]; intros rest; simpl;
    [discriminate|].
  destruct (EventCombination_eqb k0 k) eqn:E.
  - intros H; inversion H; subst. split; [reflexivity|]. split; [|split].
    + intros k' Hk'.
      apply EventCombination_eqb_eq in E.
      rewrite (EventCombination_eqb_key_l k0 k k' E), Hk'. reflexivity.
    + intros k1 Hk1. right. exact Hk1.
    + intros [Hfresh Hwf]. split; [|exact Hwf].
      apply EventCombination_eqb_eq in E.
      rewrite <- (mget_key k0 k rest E). exact Hfresh.
  - destruct (mpop k d) as [[r d']|]; [|discriminate].
    intros H; inversion H; subst.
    destruct (IH d' eq_refl) as (Hget & Hother & Hkeys & Hwf).
    split; [exact Hget|]. split; [|split].
    + intros k' Hk'. simpl.
      destruct (EventCombination_eqb k0 k'); [reflexivity|]. apply Hother, Hk'.
    + intros k1 [<-|Hk1]; [left; reflexivity|right; apply Hkeys, Hk1].
    + intros [Hfresh Hd]. destruct (Hwf Hd) as [Hnone Hwf'].
      simpl. rewrite E. split; [exact Hnone|]. split; [|exact Hwf'].
      apply mget_None_iff. intros k1 Hk1.
      apply (proj1 (mget_None_iff k0 d) Hfresh). apply Hkeys, Hk1.
Qed.

Lemma no_permuted_keys_wf (d : MappingsDict) : no_permuted_keys d -> mwf d.
Proof.
  induction d as [|[k0 m0] d IH]; simpl; [auto|].
  intros [Hk Hd]. split; [|apply IH, Hd].
  apply mget_None_iff. intros k1 Hk1 Heq.
  apply (Hk k1 Hk1). apply same_trigger_key. symmetry. exact Heq.
Qed.

(** Under the invariant at most one key of a permutation class is stored:
    once [k] is found, a lookup of any combination of its class finds the
    same mapping or nothing, according to whether it equals [k]. *)
Lemma mget_same_trigger (d : MappingsDict) (k k' : EventCombination)
    (m : Mapping) :
  no_permuted_keys d -> mget k d = Some m -> same_trigger k k' ->
  mget k' d = if EventCombination_eqb k k' then Some m else None.
Proof.
  induction d as [|[k0 m0] d IH]; simpl; [discriminate|].
  intros [Hk0 Hd] Hget Hst.
  destruct (EventCombination_eqb k0 k) eqn:E.
  - inversion Hget; subst m0. apply EventCombination_eqb_eq in E.
    rewrite (EventCombination_eqb_key_l k0 k k' E).
    destruct (EventCombination_eqb k k') eqn:E'; [reflexivity|].
    apply mget_None_iff. intros k1 Hk1 Heq.
    apply (Hk0 k1 Hk1).
    apply same_trigger_trans with k; [apply same_trigger_key, E|].
    apply same_trigger_trans with k'; [exact Hst|].
    apply same_trigger_key. symmetry. exact Heq.
  - destruct (EventCombination_eqb k0 k') eqn:E'.
    + exfalso. destruct (mget_In_keys _ _ _ Hget) as [k1 [Hk1 Heq]].
      apply (Hk0 k1 Hk1). apply EventCombination_eqb_eq in E'.
      apply same_trigger_trans with k'; [apply same_trigger_key, E'|].
      apply same_trigger_trans with k; [apply same_trigger_sym, Hst|].
      apply same_trigger_key. symmetry. exact Heq.
    + apply IH; assumption.
Qed.

(** Whether some enumerated permutation of [c] is a key of [d]. *)
Lemma any_permutation_stored (c : EventCombination) (d : MappingsDict) :
  existsb (fun permutation => mmem permutation d) (get_permutations c) = true
  <-> exists k, In k (dict_keys d) /\ same_trigger c k.
Proof.
  rewrite existsb_exists. split.
  - intros [x [Hx Hm]]. apply mmem_true_iff in Hm.
    destruct Hm as [k0 [Hin Hk]]. exists k0. split; [exact Hin|].
    apply get_permutations_same_trigger. exists x. split; [exact Hx|].
    apply EventCombination_eqb_eq. symmetry. exact Hk.
  - intros [k [Hin Hst]].
    apply get_permutations_same_trigger in Hst. destruct Hst as [x [Hx Hk]].
    exists x. split; [exact Hx|]. apply mmem_true_iff.
    exists k. split; [exact Hin|].
    apply EventCombination_eqb_eq in Hk. symmetry. exact Hk.
Qed.

Lemma no_permutation_stored (c : EventCombination) (d : MappingsDict) :
  existsb (fun permutation => mmem permutation d) (get_permutations c) = false
  <-> forall k, In k (dict_keys d) -> ~ same_trigger c k.
Proof.
  rewrite <- not_true_iff_false, any_permutation_stored. split.
  - intros H k Hin Hst. apply H. exists k. auto.
  - intros H [k [Hin Hst]]. exact (H k Hin Hst).
Qed.

(** ** Preset.get_mapping *)

Lemma first_existing_None (d : MappingsDict) (L : list EventCombination) :
  (forall x, In x L -> mget x d = None) -> first_existing d L = None.
Proof.
  induction L as [|x L IH]; simpl; [reflexivity|].
  intros H. rewrite (H x (or_introl eq_refl)). apply IH.
  intros y Hy. apply H. right. exact Hy.
Qed.

Lemma first_existing_Some (d : MappingsDict) (L : list EventCombination)
    (m : Mapping) :
  (forall x, In x L -> mget x d = Some m \/ mget x d = None) ->
  (exists x, In x L /\ mget x d = Some m) ->
  first_existing d L = Some m.
Proof.
  induction L as [|x L IH]; simpl; intros Hall [y [Hy Hm]]; [contradiction|].
  destruct (Hall x (or_introl eq_refl)) as [-> | Hx]; [reflexivity|].
  rewrite Hx. apply IH.
  - intros z Hz. apply Hall. right. exact Hz.
  - destruct Hy as [<-|Hy]; [congruence|]. exists y. auto.
Qed.

Lemma first_existing_stored (d : MappingsDict) (C C' : EventCombination)
    (m : Mapping) :
  no_permuted_keys d -> mget C d = Some m -> same_trigger C C' ->
  first_existing d (get_permutations C') = Some m.
Proof.
  intros Hinv Hget Hst. apply first_existing_Some.
  - intros x Hx.
    assert (same_trigger C x) as Hcx.
    { apply same_trigger_trans with C'; [exact Hst|].
      apply get_permutations_spec in Hx. unfold same_trigger, key_of.
      apply Permutation_map. exact Hx. }
    rewrite (mget_same_trigger d C x m Hinv Hget Hcx).
    destruct (EventCombination_eqb C x); auto.
  - apply same_trigger_sym in Hst.
    apply get_permutations_same_trigger in Hst.
    destruct Hst as [x [Hx Hk]]. exists x. split; [exact Hx|].
    apply EventCombination_eqb_eq in Hk. rewrite (mget_key x C d Hk).
    exact Hget.
Qed.

Lemma get_mapping_nonempty (p : Preset) (C : EventCombination) :
  C <> [] ->
  get_mapping p (Some C) = first_existing (_mappings p) (get_permutations C).
Proof. destruct C; [contradiction|reflexivity]. Qed.

(** C3. In a preset that holds no two permutations of one combination, a
    stored combination C and every permutation C' of it look up the same:
    [get_mapping] answers alike for both, and with the Mapping stored under
    C unless C is the empty tuple, which [get_mapping] treats as no
    combination at all.  When no permutation of C is stored the answer is
    None. *)
Theorem get_mapping_ignores_order (p : Preset) (C C' : EventCombination) :
  (no_permuted_keys (_mappings p) ->
   forall m, mget C (_mappings p) = Some m -> same_trigger C C' ->
   get_mapping p (Some C') = get_mapping p (Some C)
   /\ (C <> [] -> get_mapping p (Some C') = Some m))
  /\ ((forall k, In k (dict_keys (_mappings p)) -> ~ same_trigger C k) ->
      get_mapping p (Some C) = None).
Proof.
  split.
  - intros Hinv m Hget Hst.
    assert (C <> [] -> get_mapping p (Some C') = Some m) as Hne.
    { intros HC.
      assert (C' <> []) as HC'.
      { intros E. apply HC.
        exact (same_trigger_nil C' C (same_trigger_sym _ _ Hst) E). }
      rewrite (get_mapping_nonempty p C' HC').
      apply (first_existing_stored _ C C' m Hinv Hget Hst). }
    split; [|exact Hne].
    destruct C as [|e C].
    + rewrite (same_trigger_nil [] C' Hst eq_refl). reflexivity.
    + rewrite Hne by discriminate.
      rewrite get_mapping_nonempty by discriminate. symmetry.
      apply (first_existing_stored _ (e :: C) (e :: C) m Hinv Hget).
      apply same_trigger_refl.
  - intros Hnone. destruct C as [|e C]; [reflexivity|].
    rewrite get_mapping_nonempty by discriminate.
    apply first_existing_None. intros x Hx.
    apply mget_None_iff. intros k Hk Heq. apply (Hnone k Hk).
    apply same_trigger_trans with x.
    + apply get_permutations_spec in Hx. unfold same_trigger, key_of.
      apply Permutation_map. exact Hx.
    + apply same_trigger_key. symmetry. exact Heq.
Qed.

(** ** Preset.add *)

(** C4. Adding a mapping whose combination is, up to the order of its
    events, already a key raises KeyError and hands back the very same
    preset; otherwise the mapping goes in as a new item under its
    combination, with the preset's rename callback attached. *)
Theorem add_rejects_stored_permutations
    (p : Preset) (m : Mapping) (c : EventCombination)
    (Hc : event_combination m = Combination c) :
  ((exists k, In k (dict_keys (_mappings p)) /\ same_trigger c k) ->
   add p m = (Raise KeyError, p))
  /\ ((forall k, In k (dict_keys (_mappings p)) -> ~ same_trigger c k) ->
      let m' := set_combination_changed_callback m PresetCombinationChanged in
      add p m
      = (Ok tt, mkPreset (_mappings p ++ [(c, m')])
                         (_saved_mappings p) (_path p))
      /\ _combination_changed m' = Some PresetCombinationChanged
      /\ (c <> [] -> get_mapping (snd (add p m)) (Some c) = Some m')).
Proof.
  split.
  - intros H. unfold add. rewrite Hc.
    apply any_permutation_stored in H. rewrite H. reflexivity.
  - intros Hfresh m'.
    assert (mget c (_mappings p) = None) as Hget.
    { apply mget_None_iff. intros k Hk Heq. apply (Hfresh k Hk).
      apply same_trigger_key. symmetry. exact Heq. }
    assert (add p m = (Ok tt, mkPreset (_mappings p ++ [(c, m')])
                                (_saved_mappings p) (_path p))) as Hadd.
    { unfold add. rewrite Hc.
      rewrite (proj2 (no_permutation_stored c _) Hfresh).
      rewrite (mset_fresh _ _ _ Hget). reflexivity. }
    split; [exact Hadd|]. split; [reflexivity|].
    rewrite Hadd. simpl snd. intros Hne.
    destruct c as [|e c]; [contradiction|].
    rewrite get_mapping_nonempty by discriminate. simpl _mappings.
    rewrite <- (mset_fresh _ _ _ Hget).
    apply first_existing_Some.
    + intros x Hx. rewrite mset_get.
      destruct (EventCombination_eqb (e :: c) x); [left; reflexivity|].
      right. apply mget_None_iff. intros k Hk Heq. apply (Hfresh k Hk).
      apply same_trigger_trans with x.
      * apply get_permutations_spec in Hx. unfold same_trigger, key_of.
        apply Permutation_map. exact Hx.
      * apply same_trigger_key. symmetry. exact Heq.
    + exists (e :: c). split.
      * apply get_permutations_spec. apply Permutation_refl.
      * rewrite mset_get, EventCombination_eqb_refl. reflexivity.
Qed.

(** ** Preset._combination_changed_callback *)

Lemma rename_collides (d : MappingsDict) (new old : EventCombination) :
  existsb (fun permutation =>
             mmem permutation d
             && negb (EventCombination_eqb permutation old))
          (get_permutations new) = true
  <-> exists k, In k (dict_keys d) /\ same_trigger new k
                /\ key_of k <> key_of old.
Proof.
  rewrite existsb_exists. split.
  - intros [x [Hx Hc]]. apply andb_true_iff in Hc. destruct Hc as [Hm Hne].
    apply mmem_true_iff in Hm. destruct Hm as [k [Hk Heq]].
    exists k. split; [exact Hk|]. split.
    + apply get_permutations_same_trigger. exists x. split; [exact Hx|].
      apply EventCombination_eqb_eq. symmetry. exact Heq.
    + intros E. apply negb_true_iff in Hne.
      assert (EventCombination_eqb x old = true)
        by (apply EventCombination_eqb_eq; congruence).
      congruence.
  - intros [k [Hk [Hst Hne]]].
    apply get_permutations_same_trigger in Hst. destruct Hst as [x [Hx Heq]].
    exists x. split; [exact Hx|]. apply andb_true_iff. split.
    + apply mmem_true_iff. exists k. split; [exact Hk|].
      apply EventCombination_eqb_eq in Heq. symmetry. exact Heq.
    + apply negb_true_iff. apply not_true_iff_false. intros E.
      apply EventCombination_eqb_eq in Heq, E. apply Hne. congruence.
Qed.

(** C6. The preset holds [m] under [old].  If, up to the order of its
    events, [new] is a stored key other than [old], the callback raises
    KeyError and hands back the very same preset, so [old] still maps to
    [m].  If not, the item leaves [old] and is filed under [new]: [new]
    maps to [m], [old] to nothing unless it equals [new], every other key as
    before. *)
Theorem rename_callback_rekeys_or_rejects
    (p : Preset) (new old : EventCombination) (m : Mapping)
    (Hwf : mwf (_mappings p))
    (Hold : mget old (_mappings p) = Some m) :
  ((exists k, In k (dict_keys (_mappings p)) /\ same_trigger new k
              /\ key_of k <> key_of old) ->
   _combination_changed_callback p new old = (Raise KeyError, p)
   /\ mget old (_mappings (snd (_combination_changed_callback p new old)))
      = Some m)
  /\ ((forall k, In k (dict_keys (_mappings p)) -> same_trigger new k ->
                 key_of k = key_of old) ->
      exists rest,
        mpop old (_mappings p) = Some (m, rest)
        /\ _combination_changed_callback p new old
           = (Ok tt, mkPreset (rest ++ [(new, m)])
                              (_saved_mappings p) (_path p))
        /\ let d' := _mappings (snd (_combination_changed_callback p new old))
           in mget new d' = Some m
              /\ (key_of old <> key_of new -> mget old d' = None)
              /\ (forall k, key_of k <> key_of old -> key_of k <> key_of new ->
                            mget k d' = mget k (_mappings p))).
Proof.
  split.
  - intros H.
    assert (_combination_changed_callback p new old = (Raise KeyError, p))
      as Hcb.
    { unfold _combination_changed_callback.
      rewrite (proj2 (rename_collides _ new old) H). reflexivity. }
    rewrite Hcb. split; [reflexivity|exact Hold].
  - intros H.
    destruct (mpop old (_mappings p)) as [[m0 rest]|] eqn:Hpop.
    2:{ apply mpop_None in Hpop. congruence. }
    destruct (mpop_Some _ _ _ _ Hpop) as (Hget & Hother & Hkeys & Hwf').
    assert (m0 = m) by congruence. subst m0.
    destruct (Hwf' Hwf) as [Hgone _].
    assert (mget new rest = None) as Hnew.
    { apply mget_None_iff. intros k Hk Heq.
      assert (key_of k = key_of old) as Hko.
      { apply H; [apply Hkeys, Hk|].
        apply same_trigger_key. symmetry. exact Heq. }
      exact (proj1 (mget_None_iff old rest) Hgone k Hk Hko). }
    assert (_combination_changed_callback p new old
            = (Ok tt, mkPreset (rest ++ [(new, m)])
                               (_saved_mappings p) (_path p))) as Hcb.
    { unfold _combination_changed_callback.
      destruct (existsb _ (get_permutations new)) eqn:Hex.
      - apply rename_collides in Hex. destruct Hex as [k [Hk [Hst Hne]]].
        exfalso. exact (Hne (H k Hk Hst)).
      - rewrite Hpop, (mset_fresh _ _ _ Hnew). reflexivity. }
    exists rest. split; [reflexivity|]. split; [exact Hcb|].
    rewrite Hcb. simpl. rewrite <- (mset_fresh _ _ _ Hnew).
    split; [|split].
    + rewrite mset_get, EventCombination_eqb_refl. reflexivity.
    + intros Hne. rewrite mset_get.
      destruct (EventCombination_eqb new old) eqn:E; [|exact Hgone].
      apply EventCombination_eqb_eq in E. congruence.
    + intros k Hko Hkn. rewrite mset_get.
      destruct (EventCombination_eqb new k) eqn:E.
      * apply EventCombination_eqb_eq in E. congruence.
      * apply Hother. apply not_true_iff_false. intros E'.
        apply EventCombination_eqb_eq in E'. congruence.
Qed.

(** ** Preset.remove *)

Lemma find_stored_permutation (d : MappingsDict) (c x : EventCombination) :
  find (fun permutation => mmem permutation d) (get_permutations c) = Some x ->
  Permutation c x /\ exists m, mget x d = Some m.
Proof.
  intros H. apply find_some in H. destruct H as [Hx Hm].
  split; [apply get_permutations_spec, Hx|].
  unfold dict_mem in Hm. destruct (mget x d) as [m|]; [|discriminate].
  exists m. reflexivity.
Qed.

(** C7. When no key is, up to the order of its events, the combination,
    [remove] raises nothing and hands back the very same preset.  When one
    is, [remove] pops the item of a stored permutation [x] and takes the
    callback off its mapping: [x] maps to nothing afterwards, every other
    key as before, and under the preset's invariant nothing of the
    combination's permutation class is left. *)
Theorem remove_tolerates_order_and_absence
    (p : Preset) (c : EventCombination) :
  ((forall k, In k (dict_keys (_mappings p)) -> ~ same_trigger c k) ->
   remove p c = (p, None))
  /\ ((exists k, In k (dict_keys (_mappings p)) /\ same_trigger c k) ->
      exists x m rest,
        Permutation c x
        /\ mget x (_mappings p) = Some m
        /\ mpop x (_mappings p) = Some (m, rest)
        /\ remove p c
           = (mkPreset rest (_saved_mappings p) (_path p),
              Some (remove_combination_changed_callback m))
        /\ _combination_changed (remove_combination_changed_callback m) = None
        /\ (forall k, key_of k <> key_of x ->
                      mget k rest = mget k (_mappings p))
        /\ (mwf (_mappings p) -> mget x rest = None)
        /\ (no_permuted_keys (_mappings p) ->
            forall k, same_trigger c k -> mget k rest = None)).
Proof.
  split.
  - intros H. unfold remove.
    destruct (find _ (get_permutations c)) as [x|] eqn:Hfind.
    + exfalso. destruct (find_stored_permutation _ _ _ Hfind) as [Hx [m Hm]].
      destruct (mget_In_keys _ _ _ Hm) as [k [Hk Heq]].
      apply (H k Hk). apply same_trigger_trans with x.
      * unfold same_trigger, key_of. apply Permutation_map. exact Hx.
      * apply same_trigger_key. symmetry. exact Heq.
    + assert (mpop c (_mappings p) = None) as ->; [|reflexivity].
      apply mpop_None, mget_None_iff. intros k Hk Heq. apply (H k Hk).
      apply same_trigger_key. symmetry. exact Heq.
  - intros H. apply any_permutation_stored in H.
    destruct (find (fun permutation => mmem permutation (_mappings p))
                   (get_permutations c)) as [x|] eqn:Hfind.
    2:{ apply existsb_exists in H. destruct H as [y [Hy Hm]].
        rewrite (find_none _ _ Hfind y Hy) in Hm. discriminate. }
    destruct (find_stored_permutation _ _ _ Hfind) as [Hx [m Hm]].
    destruct (mpop x (_mappings p)) as [[m0 rest]|] eqn:Hpop.
    2:{ apply mpop_None in Hpop. congruence. }
    destruct (mpop_Some _ _ _ _ Hpop) as (Hget & Hother & Hkeys & Hwf').
    assert (m0 = m) by congruence. subst m0.
    assert (forall k, key_of k <> key_of x ->
                      mget k rest = mget k (_mappings p)) as Hrest.
    { intros k Hne. apply Hother. apply not_true_iff_false. intros E.
      apply EventCombination_eqb_eq in E. congruence. }
    exists x, m, rest. split; [exact Hx|]. split; [exact Hm|].
    split; [exact Hpop|]. split.
    { unfold remove. rewrite Hfind, Hpop. reflexivity. }
    split; [reflexivity|]. split; [exact Hrest|]. split.
    { intros Hwf. apply (Hwf' Hwf). }
    intros Hinv k Hk.
    assert (same_trigger x k) as Hxk.
    { apply same_trigger_trans with c; [|exact Hk].
      apply same_trigger_sym. unfold same_trigger, key_of.
      apply Permutation_map. exact Hx. }
    pose proof (mget_same_trigger _ x k m Hinv Hm Hxk) as Hk'.
    destruct (EventCombination_eqb x k) eqn:E.
    + apply EventCombination_eqb_eq in E. rewrite <- (mget_key x k rest E).
      apply (Hwf' (no_permuted_keys_wf _ Hinv)).
    + rewrite Hrest; [exact Hk'|]. intros Heq.
      assert (EventCombination_eqb x k = true)
        by (apply EventCombination_eqb_eq; congruence).
      congruence.
Qed.

(** ** common_data and the occupants of a permutation class *)

Lemma common_data_row_length {A B : Type} (eq : A -> B -> bool) (x : A)
    (l2 : list B) :
  length (flat_map (fun y => if eq x y then [x] else []) l2)
  = length (filter (eq x) l2).
Proof.
  induction l2 as [|y l2 IH]; simpl; [reflexivity|].
  destruct (eq x y); simpl; rewrite IH; reflexivity.
Qed.

Lemma filter_disjoint_length {B : Type} (f g : B -> bool) (l : list B) :
  (forall y, In y l -> f y = true -> g y = false) ->
  (length (filter f l) + length (filter g l)
   = length (filter (fun y => f y || g y) l))%nat.
Proof.
  induction l as [|y l IH]; simpl; intros H; [reflexivity|].
  assert (forall z, In z l -> f z = true -> g z = false) as H'
    by (intros z Hz; apply H; right; exact Hz).
  specialize (IH H'). pose proof (H y (or_introl eq_refl)) as Hy.
  destruct (f y); simpl.
  - rewrite (Hy eq_refl). simpl. lia.
  - destruct (g y); simpl; lia.
Qed.

Lemma filter_nil_existsb {A : Type} (f : A -> bool) (l : list A) :
  length (filter f l) = 0%nat -> existsb f l = false.
Proof.
  induction l as [|x l IH]; simpl; [reflexivity|].
  destruct (f x); simpl; [discriminate|exact IH].
Qed.

(** When no item of [list2] equals more than one item of [list1],
    [common_data] has one entry per item of [list2] that occurs in
    [list1]. *)
Lemma common_data_length {A B : Type} (eq : A -> B -> bool)
    (list1 : list A) (list2 : list B) :
  (forall y, length (filter (fun x => eq x y) list1) <= 1)%nat ->
  length (common_data eq list1 list2)
  = length (filter (fun y => existsb (fun x => eq x y) list1) list2).
Proof.
  induction list1 as [|x rest IH]; simpl; intros H.
  - induction list2 as [|y l IHl]; simpl; auto.
  - rewrite length_app, common_data_row_length, IH.
    + apply filter_disjoint_length. intros y _ Hxy.
      apply filter_nil_existsb. specialize (H y). rewrite Hxy in H.
      simpl in H. lia.
    + intros y. specialize (H y). destruct (eq x y); simpl in H; lia.
Qed.

Lemma at_most_one_match (L : list EventCombination) (y : CombinationField) :
  NoDup (map key_of L) ->
  (length (filter (fun x => combination_matches x y) L) <= 1)%nat.
Proof.
  destruct y as [k|]; simpl.
  2:{ intros _. induction L; simpl; auto. }
  induction L as [|x L IH]; simpl; intros Hnd; [lia|].
  inversion Hnd as [|? ? Hx HL]; subst. specialize (IH HL).
  destruct (EventCombination_eqb x k) eqn:E; simpl; [|lia].
  assert (filter (fun x0 => EventCombination_eqb x0 k) L = []) as ->;
    [|simpl; lia].
  destruct (filter (fun x0 => EventCombination_eqb x0 k) L) as [|z F] eqn:HF;
    [reflexivity|].
  exfalso. apply Hx.
  assert (In z (filter (fun x0 => EventCombination_eqb x0 k) L)) as Hz
    by (rewrite HF; left; reflexivity).
  apply filter_In in Hz. destruct Hz as [Hz Ez].
  apply EventCombination_eqb_eq in E, Ez. rewrite E, <- Ez.
  apply in_map. exact Hz.
Qed.

(** For a deduplicated combination the list [save] measures has as many
    entries as there are mappings in the combination's permutation class. *)
Lemma common_data_counts_occupants (c : EventCombination) (ms : list Mapping) :
  deduplicated c ->
  length (common_data combination_matches (get_permutations c)
                      (map event_combination ms))
  = occupants c ms.
Proof.
  intros Hc. unfold occupants. apply common_data_length.
  intros y. apply at_most_one_match.
  apply NoDup_get_permutations_keys. exact Hc.
Qed.

Lemma matches_a_permutation_iff (c k : EventCombination) :
  matches_a_permutation c (Combination k) = true <-> same_trigger c k.
Proof.
  unfold matches_a_permutation. rewrite existsb_exists.
  apply get_permutations_same_trigger.
Qed.

Lemma occupants_app (c : EventCombination) (l1 l2 : list Mapping) :
  occupants c (l1 ++ l2) = (occupants c l1 + occupants c l2)%nat.
Proof.
  unfold occupants. rewrite map_app, filter_app, length_app. reflexivity.
Qed.

Lemma occupants_cons (c : EventCombination) (m : Mapping) (l : list Mapping) :
  occupants c (m :: l)
  = ((if matches_a_permutation c (event_combination m) then 1 else 0)
     + occupants c l)%nat.
Proof.
  unfold occupants. simpl.
  destruct (matches_a_permutation c (event_combination m)); reflexivity.
Qed.

Lemma occupants_zero (c : EventCombination) (l : list Mapping) :
  occupants c l = 0%nat ->
  forall m k, In m l -> event_combination m = Combination k ->
              ~ same_trigger c k.
Proof.
  induction l as [|m0 l IH]; intros H m k Hin Hk; [contradiction|].
  rewrite occupants_cons in H.
  destruct Hin as [->|Hin].
  - rewrite Hk in H. intros Hst. apply matches_a_permutation_iff in Hst.
    rewrite Hst in H. discriminate.
  - apply (IH ltac:(lia) m k Hin Hk).
Qed.

(** ** Preset.save *)

Section DictFacts.
Context {K V : Type} (keq : K -> K -> bool).
Hypothesis keq_sym : forall a b, keq a b = keq b a.
Hypothesis keq_trans : forall a b c, keq a b = true -> keq a c = keq b c.

Lemma dict_set_get (k k' : K) (v : V) (d : dict K V) :
  dict_get keq k' (dict_set keq k v d)
  = if keq k k' then Some v else dict_get keq k' d.
Proof.
  induction d as [|[k0 v0] d IH]; simpl; [reflexivity|].
  destruct (keq k0 k) eqn:E0; simpl.
  - rewrite (keq_trans k0 k k' E0). destruct (keq k k'); reflexivity.
  - destruct (keq k0 k') eqn:E1; [|exact IH].
    destruct (keq k k') eqn:E2; [|reflexivity].
    pose proof (keq_trans k k' k0 E2) as H.
    rewrite (keq_sym k' k0), E1, keq_sym in H. congruence.
Qed.
End DictFacts.

Lemma json_key_eqb_eq (a b : list (Z * Z * Z)) :
  json_key_eqb a b = true <-> a = b.
Proof.
  revert b; induction a as [|x a IH]; intros [|y b]; simpl;
    try (split; intros H; (reflexivity || discriminate H)).
  rewrite andb_true_iff, IH, tuple3_eqb_eq. split.
  - intros [-> ->]; reflexivity.
  - intros H. inversion H; auto.
Qed.

Lemma json_set_get (k k' : list (Z * Z * Z)) (v : MappingDict) (j : Json) :
  dict_get json_key_eqb k' (dict_set json_key_eqb k v j)
  = if json_key_eqb k k' then Some v else dict_get json_key_eqb k' j.
Proof.
  apply dict_set_get.
  - intros a b. apply eq_true_iff_eq. rewrite !json_key_eqb_eq.
    split; congruence.
  - intros a b c H. apply json_key_eqb_eq in H. subst. reflexivity.
Qed.

Lemma save_visit_Written (ms : list Mapping) (m : Mapping)
    (c : EventCombination) (d : MappingDict) (sv : Mapping) :
  save_visit ms m = Ok (Written c d sv) ->
  event_combination m = Combination c
  /\ d = Mapping_dict_rest m
  /\ sv = remove_combination_changed_callback (Mapping_copy m).
Proof.
  unfold save_visit.
  destruct (negb (is_valid m)), (event_combination m) as [c0|];
    try discriminate.
  - destruct (1 <? _)%nat; [discriminate|].
    intros H; inversion H; auto.
  - intros H; inversion H; auto.
Qed.

Lemma save_loop_app (ms t1 t2 : list Mapping) (j : Json) (s : MappingsDict) :
  save_loop ms (t1 ++ t2) j s
  = match save_loop ms t1 j s with
    | Ok (j1, s1) => save_loop ms t2 j1 s1
    | Raise e => Raise e
    end.
Proof.
  revert j s; induction t1 as [|m t1 IH]; intros j s; simpl; [reflexivity|].
  destruct (save_visit ms m) as [[|c d sv]|e]; auto.
Qed.

(** A skipped mapping leaves no trace: the loop ends as if the mapping had
    not been iterated. *)
Lemma save_loop_skip (ms t1 t2 : list Mapping) (m : Mapping) (j : Json)
    (s : MappingsDict) :
  save_visit ms m = Ok Skipped ->
  save_loop ms (t1 ++ m :: t2) j s = save_loop ms (t1 ++ t2) j s.
Proof.
  intros H. rewrite !save_loop_app.
  destruct (save_loop ms t1 j s) as [[j1 s1]|e]; [|reflexivity].
  simpl. rewrite H. reflexivity.
Qed.

(** Rounds that record nothing under [c] leave what is recorded under [c]
    as it was. *)
Lemma save_loop_untouched (ms todo : list Mapping) (c : EventCombination)
    (j j' : Json) (s s' : MappingsDict) :
  save_loop ms todo j s = Ok (j', s') ->
  (forall m' c' d sv, In m' todo -> save_visit ms m' = Ok (Written c' d sv) ->
                      key_of c' <> key_of c) ->
  mget c s' = mget c s
  /\ dict_get json_key_eqb (json_str c) j'
     = dict_get json_key_eqb (json_str c) j.
Proof.
  revert j s; induction todo as [|m todo IH]; intros j s; simpl.
  - intros H _. inversion H; auto.
  - intros H Hno.
    assert (forall m' c' d sv, In m' todo ->
              save_visit ms m' = Ok (Written c' d sv) ->
              key_of c' <> key_of c) as Hno'
      by (intros m' c' d sv Hin; apply Hno; right; exact Hin).
    destruct (save_visit ms m) as [[|c0 d0 sv0]|e] eqn:Hv; [| |discriminate].
    + apply (IH _ _ H Hno').
    + destruct (IH _ _ H Hno') as [-> ->].
      pose proof (Hno m c0 d0 sv0 (or_introl eq_refl) Hv) as Hne.
      rewrite mset_get, json_set_get. split.
      * destruct (EventCombination_eqb c0 c) eqn:E; [|reflexivity].
        apply EventCombination_eqb_eq in E. contradiction.
      * destruct (json_key_eqb (json_str c0) (json_str c)) eqn:E;
          [|reflexivity].
        apply json_key_eqb_eq in E. contradiction.
Qed.

Lemma save_loop_of_save (p p' : Preset) (path : Path) (j : Json) :
  save p = (Ok tt, p', [IOTouch path; IOWrite path j]) ->
  save_loop (Preset_iter p) (Preset_iter p) [] []
  = Ok (j, _saved_mappings p').
Proof.
  unfold save. intros Hsave.
  destruct (_path p) as [path0|]; [|discriminate].
  destruct (path_unset (Some path0)); [discriminate|].
  destruct (negb (has_unsaved_changes p)); [discriminate|].
  destruct (save_loop _ _ [] []) as [[j0 s0]|e]; [|discriminate].
  inversion Hsave; subst. reflexivity.
Qed.

Lemma save_of_save_loop (p : Preset) (path : Path) (j : Json)
    (s : MappingsDict) :
  _path p = Some path -> path_unset (_path p) = false ->
  has_unsaved_changes p = true ->
  save_loop (Preset_iter p) (Preset_iter p) [] [] = Ok (j, s) ->
  save p = (Ok tt, mkPreset (_mappings p) s (_path p),
            [IOTouch path; IOWrite path j]).
Proof.
  intros Hpath Hset Hdirty Hloop. unfold save.
  rewrite Hset, Hdirty, Hloop. rewrite Hpath at 1. reflexivity.
Qed.

(** The loop only raises on a valid mapping that carries no
    EventCombination. *)
Lemma save_loop_never_raises (ms todo : list Mapping) (j : Json)
    (s : MappingsDict) :
  (forall m, In m todo -> is_valid m = true ->
             exists c, event_combination m = Combination c) ->
  exists j' s', save_loop ms todo j s = Ok (j', s').
Proof.
  revert j s; induction todo as [|m todo IH]; intros j s H; simpl.
  - exists j, s. reflexivity.
  - assert (forall m', In m' todo -> is_valid m' = true ->
              exists c, event_combination m' = Combination c) as H'
      by (intros m' Hm'; apply H; right; exact Hm').
    pose proof (H m (or_introl eq_refl)) as Hm.
    unfold save_visit.
    destruct (is_valid m) eqn:Ev; simpl.
    + destruct (Hm eq_refl) as [c ->]. apply IH, H'.
    + destruct (event_combination m) as [c|]; [|apply IH, H'].
      destruct (1 <? _)%nat; apply IH, H'.
Qed.

(** What is recorded for a mapping that is alone in its permutation class
    is still there when the loop ends. *)
Lemma sole_occupant_recorded (ms : list Mapping) (m : Mapping)
    (c : EventCombination) (d : MappingDict) (sv : Mapping) (j : Json)
    (s : MappingsDict) :
  In m ms -> save_visit ms m = Ok (Written c d sv) ->
  occupants c ms = 1%nat ->
  save_loop ms ms [] [] = Ok (j, s) ->
  mget c s = Some sv /\ dict_get json_key_eqb (json_str c) j = Some d.
Proof.
  intros Hin Hw Hocc Hloop.
  destruct (save_visit_Written _ _ _ _ _ Hw) as [Hc _].
  destruct (in_split _ _ Hin) as [t1 [t2 Hsplit]].
  assert (matches_a_permutation c (event_combination m) = true) as Hself.
  { rewrite Hc. apply matches_a_permutation_iff, same_trigger_refl. }
  assert (occupants c t2 = 0%nat) as Ht2.
  { rewrite Hsplit, occupants_app, occupants_cons, Hself in Hocc. lia. }
  rewrite Hsplit in Hloop at 2. rewrite save_loop_app in Hloop.
  destruct (save_loop ms t1 [] []) as [[j1 s1]|e]; [|discriminate].
  simpl in Hloop. rewrite Hw in Hloop.
  destruct (save_loop_untouched ms t2 c _ _ _ _ Hloop) as [-> ->].
  - intros m' c' d' sv' Hm' Hv Heq.
    apply save_visit_Written in Hv. destruct Hv as [Hc' _].
    apply (occupants_zero c t2 Ht2 m' c' Hm' Hc').
    apply same_trigger_key. symmetry. exact Heq.
  - rewrite mset_get, json_set_get, EventCombination_eqb_refl.
    rewrite (proj2 (json_key_eqb_eq _ _) eq_refl). auto.
Qed.

Lemma matches_a_permutation_NotACombination (c : EventCombination) :
  matches_a_permutation c NotACombination = false.
Proof.
  unfold matches_a_permutation.
  induction (get_permutations c) as [|x L IH]; simpl; auto.
Qed.

Lemma occupants_same_trigger (c c' : EventCombination) (ms : list Mapping) :
  same_trigger c c' -> occupants c ms = occupants c' ms.
Proof.
  intros H. unfold occupants. f_equal. apply filter_ext. intros [k|].
  - apply eq_true_iff_eq. rewrite !matches_a_permutation_iff. split.
    + apply same_trigger_trans, same_trigger_sym, H.
    + apply same_trigger_trans, H.
  - rewrite !matches_a_permutation_NotACombination. reflexivity.
Qed.

(** Why the theorem below asks for a combination that names no event
    twice, as the spec's deduplicated EventCombination does: the
    permutations of a combination with a repeated event repeat, so
    [common_data] counts a lone mapping twice and [save] skips it. *)
Lemma lone_mapping_with_repeated_event_is_skipped :
  let ms := Preset_iter preset_with_repeated_event in
  In ctrl_ctrl_s ms
  /\ is_valid ctrl_ctrl_s = false
  /\ event_combination ctrl_ctrl_s
     = Combination [KEY_LEFTCTRL_down; KEY_LEFTCTRL_down; KEY_S_down]
  /\ occupants [KEY_LEFTCTRL_down; KEY_LEFTCTRL_down; KEY_S_down] ms = 1%nat
  /\ save_visit ms ctrl_ctrl_s = Ok Skipped
  /\ save preset_with_repeated_event
     = (Ok tt, preset_with_repeated_event,
        [IOTouch sample_path; IOWrite sample_path []]).
Proof.
  cbv zeta. split; [left; reflexivity|]. repeat split.
Qed.

(** C5. For a mapping of the preset that is not valid and whose
    combination, if it is one, names no event twice: one round of [save]'s
    loop skips it exactly when its event_combination is no EventCombination
    or more than one mapping of the preset has a combination in its
    permutation class.  A skipped mapping leaves no trace in what the loop
    builds, and when a whole class of such mappings is skipped a [save] that
    writes has nothing under any order of the combination, neither in the
    JSON object nor in the saved snapshot.  A mapping that is the sole
    occupant of its class is recorded, and it is written: in a preset with a
    path and unsaved changes, whose valid mappings all carry an
    EventCombination, [save] succeeds, touches and writes the file, and the
    JSON object holds the mapping's fields under its combination and the
    saved snapshot its copy, callback removed. *)
Theorem save_skips_invalid_unless_sole_occupant
    (p : Preset) (m : Mapping)
    (Hin : In m (Preset_iter p))
    (Hinvalid : is_valid m = false)
    (Hdedup : forall c, event_combination m = Combination c -> deduplicated c) :
  let ms := Preset_iter p in
  (save_visit ms m = Ok Skipped <->
   event_combination m = NotACombination
   \/ exists c, event_combination m = Combination c
                /\ (1 < occupants c ms)%nat)
  /\ (save_visit ms m = Ok Skipped ->
      forall t1 t2 j s,
        save_loop ms (t1 ++ m :: t2) j s = save_loop ms (t1 ++ t2) j s)
  /\ (forall c, event_combination m = Combination c ->
                (1 < occupants c ms)%nat ->
      (forall m' k, In m' ms -> event_combination m' = Combination k ->
                    same_trigger c k ->
                    is_valid m' = false /\ deduplicated k) ->
      forall path p' json_ready,
        save p = (Ok tt, p', [IOTouch path; IOWrite path json_ready]) ->
        forall k, same_trigger c k ->
                  mget k (_saved_mappings p') = None
                  /\ dict_get json_key_eqb (json_str k) json_ready = None)
  /\ (forall c, event_combination m = Combination c ->
                occupants c ms = 1%nat ->
      let saved := remove_combination_changed_callback (Mapping_copy m) in
      save_visit ms m = Ok (Written c (Mapping_dict_rest m) saved)
      /\ (forall path p' json_ready,
            save p = (Ok tt, p', [IOTouch path; IOWrite path json_ready]) ->
            mget c (_saved_mappings p') = Some saved
            /\ dict_get json_key_eqb (json_str c) json_ready
               = Some (Mapping_dict_rest m))
      /\ (forall path,
            _path p = Some path -> path_unset (_path p) = false ->
            has_unsaved_changes p = true ->
            (forall m', In m' ms -> is_valid m' = true ->
                        exists c', event_combination m' = Combination c') ->
            exists json_ready saved_mappings,
              save p
              = (Ok tt, mkPreset (_mappings p) saved_mappings (_path p),
                 [IOTouch path; IOWrite path json_ready])
              /\ mget c saved_mappings = Some saved
              /\ dict_get json_key_eqb (json_str c) json_ready
                 = Some (Mapping_dict_rest m))).
Proof.
  intros ms.
  assert (forall m' c, is_valid m' = false ->
            event_combination m' = Combination c -> deduplicated c ->
            save_visit ms m'
            = if (1 <? occupants c ms)%nat then Ok Skipped
              else Ok (Written c (Mapping_dict_rest m')
                         (remove_combination_changed_callback
                            (Mapping_copy m')))) as Hvisit.
  { intros m' c Hv Hc Hd. unfold save_visit. rewrite Hv, Hc. simpl.
    rewrite (common_data_counts_occupants c ms Hd). reflexivity. }
  split; [|split; [|split]].
  - destruct (event_combination m) as [c|] eqn:Hc.
    + rewrite (Hvisit m c Hinvalid Hc (Hdedup c eq_refl)).
      destruct (1 <? occupants c ms)%nat eqn:E.
      * apply Nat.ltb_lt in E. split; [|reflexivity].
        intros _. right. exists c. auto.
      * apply Nat.ltb_ge in E. split; [discriminate|].
        intros [H|[c' [H Hlt]]]; [discriminate|].
        inversion H; subst. lia.
    + split; [intros _; left; reflexivity|].
      intros _. unfold save_visit. rewrite Hinvalid, Hc. reflexivity.
  - intros Hskip t1 t2 j s. apply save_loop_skip. exact Hskip.
  - intros c Hc Hocc Hclass path p' json_ready Hsave k Hk.
    pose proof (save_loop_of_save _ _ _ _ Hsave) as Hloop. fold ms in Hloop.
    apply (save_loop_untouched ms ms k _ _ _ _ Hloop).
    intros m' c' d sv Hm' Hw Heq.
    destruct (save_visit_Written _ _ _ _ _ Hw) as [Hc' _].
    assert (same_trigger c c') as Hcc'.
    { apply same_trigger_trans with k; [exact Hk|].
      apply same_trigger_key. symmetry. exact Heq. }
    destruct (Hclass m' c' Hm' Hc' Hcc') as [Hv' Hd'].
    rewrite (Hvisit m' c' Hv' Hc' Hd') in Hw.
    rewrite <- (occupants_same_trigger c c' ms Hcc') in Hw.
    apply Nat.ltb_lt in Hocc. rewrite Hocc in Hw. discriminate.
  - intros c Hc Hocc saved.
    assert (save_visit ms m = Ok (Written c (Mapping_dict_rest m) saved))
      as Hw.
    { rewrite (Hvisit m c Hinvalid Hc (Hdedup c Hc)), Hocc. reflexivity. }
    split; [exact Hw|]. split.
    + intros path p' json_ready Hsave.
      pose proof (save_loop_of_save _ _ _ _ Hsave) as Hloop. fold ms in Hloop.
      apply (sole_occupant_recorded ms m c _ _ _ _ Hin Hw Hocc Hloop).
    + intros path Hpath Hset Hdirty Hcarry.
      destruct (save_loop_never_raises ms ms [] [] Hcarry) as (j & s & Hloop).
      exists j, s. split.
      * apply save_of_save_loop; assumption.
      * apply (sole_occupant_recorded ms m c _ _ _ _ Hin Hw Hocc Hloop).
Qed.

Lemma CombinationField_eqb_refl (f : CombinationField) :
  CombinationField_eqb f f = true.
Proof. destruct f; simpl; [apply EventCombination_eqb_refl|reflexivity]. Qed.

Lemma Mapping_eqb_saved_copy (m : Mapping) :
  Mapping_eqb m (remove_combination_changed_callback (Mapping_copy m)) = true.
Proof.
  unfold Mapping_eqb, Mapping_copy. simpl.
  rewrite CombinationField_eqb_refl, Bool.eqb_reflx.
  destruct (output_symbol m) as [o|]; simpl; [|reflexivity].
  rewrite String.eqb_refl. reflexivity.
Qed.

Lemma keyed_combination_of (d : MappingsDict) (k : EventCombination)
    (m : Mapping) :
  keyed_by_combination d -> In (k, m) d ->
  event_combination m = Combination (combination_of m)
  /\ key_of k = key_of (combination_of m).
Proof.
  intros Hkeyed Hin. specialize (Hkeyed k m Hin).
  unfold combination_of. destruct (event_combination m) as [c|]; simpl in *;
    [|discriminate].
  split; [reflexivity|]. apply EventCombination_eqb_eq. exact Hkeyed.
Qed.

Lemma mwf_app_fresh (d1 d2 : MappingsDict) (k : EventCombination)
    (m : Mapping) :
  mwf (d1 ++ (k, m) :: d2) ->
  forall k1, In k1 (dict_keys d1) -> key_of k1 <> key_of k.
Proof.
  induction d1 as [|[k0 m0] d1 IH]; simpl; [intros _ ? []|].
  intros [Hfresh Hwf] k1 [<-|Hk1]; [|apply (IH Hwf k1 Hk1)].
  intros E. apply (proj1 (mget_None_iff _ _) Hfresh k); [|symmetry; exact E].
  unfold dict_keys. rewrite map_app. apply in_or_app. right. left. reflexivity.
Qed.

Lemma save_visit_not_skipped (ms : list Mapping) (m : Mapping)
    (c : EventCombination) :
  event_combination m = Combination c ->
  save_visit ms m <> Ok Skipped ->
  save_visit ms m
  = Ok (Written c (Mapping_dict_rest m)
          (remove_combination_changed_callback (Mapping_copy m))).
Proof.
  unfold save_visit. intros ->.
  destruct (negb (is_valid m)); [|reflexivity].
  destruct (1 <? _)%nat; [congruence|reflexivity].
Qed.

(** When nothing is skipped and every mapping sits under its own
    combination, the loop records the whole dict. *)
Lemma save_loop_records_all (ms : list Mapping) (d1 d2 : MappingsDict)
    (j : Json) :
  mwf (d1 ++ d2) -> keyed_by_combination (d1 ++ d2) ->
  (forall m, In m (dict_values d2) -> save_visit ms m <> Ok Skipped) ->
  exists j', save_loop ms (dict_values d2) j (snapshot d1)
             = Ok (j', snapshot (d1 ++ d2)).
Proof.
  revert d1 j; induction d2 as [|[k m] d2 IH]; intros d1 j Hwf Hkeyed Hnoskip.
  - exists j. rewrite app_nil_r. reflexivity.
  - simpl.
    assert (In (k, m) (d1 ++ (k, m) :: d2)) as Hin
      by (apply in_or_app; right; left; reflexivity).
    destruct (keyed_combination_of _ k m Hkeyed Hin) as [Hc Hk].
    rewrite (save_visit_not_skipped ms m _ Hc
               (Hnoskip m (or_introl eq_refl))).
    assert (mget (combination_of m) (snapshot d1) = None) as Hfresh.
    { apply mget_None_iff. intros k1 Hk1 Heq.
      unfold dict_keys, snapshot in Hk1. rewrite map_map in Hk1.
      apply in_map_iff in Hk1. destruct Hk1 as [[k0 m0] [<- Hin0]].
      simpl in Heq.
      assert (In (k0, m0) (d1 ++ (k, m) :: d2)) as Hin0'
        by (apply in_or_app; left; exact Hin0).
      destruct (keyed_combination_of _ k0 m0 Hkeyed Hin0') as [_ Hk0].
      apply (mwf_app_fresh d1 d2 k m Hwf k0).
      - change k0 with (fst (k0, m0)). apply in_map. exact Hin0.
      - congruence. }
    rewrite (mset_fresh _ _ _ Hfresh).
    replace (d1 ++ (k, m) :: d2) with ((d1 ++ [(k, m)]) ++ d2) in *
      by (rewrite <- app_assoc; reflexivity).
    replace (snapshot d1 ++ _) with (snapshot (d1 ++ [(k, m)]))
      by (unfold snapshot; rewrite map_app; reflexivity).
    apply IH; auto.
    intros m' Hm'. apply Hnoskip. right. exact Hm'.
Qed.

Lemma snapshot_get (d : MappingsDict) (k : EventCombination) (m : Mapping) :
  mwf d -> keyed_by_combination d -> In (k, m) d ->
  mget k (snapshot d)
  = Some (remove_combination_changed_callback (Mapping_copy m)).
Proof.
  induction d as [|[k0 m0] d IH]; simpl; [intros _ _ []|].
  intros [Hfresh Hwf] Hkeyed Hin.
  destruct (keyed_combination_of _ k0 m0 Hkeyed (or_introl eq_refl))
    as [_ Hk0].
  destruct Hin as [Heq|Hin].
  - inversion Heq; subst.
    assert (EventCombination_eqb (combination_of m) k = true) as ->
      by (apply EventCombination_eqb_eq; congruence).
    reflexivity.
  - assert (EventCombination_eqb (combination_of m0) k = false) as ->.
    { apply not_true_iff_false. intros E. apply EventCombination_eqb_eq in E.
      apply (proj1 (mget_None_iff _ _) Hfresh k).
      - change k with (fst (k, m)). apply in_map. exact Hin.
      - congruence. }
    apply IH; auto.
    intros k1 m1 H1. apply Hkeyed. right. exact H1.
Qed.

Lemma snapshot_equals_dict (d : MappingsDict) :
  mwf d -> keyed_by_combination d ->
  dict_eqb EventCombination_eqb Mapping_eqb d (snapshot d) = true.
Proof.
  intros Hwf Hkeyed. unfold dict_eqb. apply andb_true_iff. split.
  - unfold snapshot. rewrite length_map. apply Nat.eqb_refl.
  - apply forallb_forall. intros [k m] Hin. simpl.
    rewrite (snapshot_get d k m Hwf Hkeyed Hin).
    apply Mapping_eqb_saved_copy.
Qed.

(** C2, as the code has it. *)
Lemma save_twice_writes_twice :
  let first := save preset_with_broken_mapping in
  let p1 := snd (fst first) in
  snd first = [IOTouch sample_path; IOWrite sample_path []]
  /\ has_unsaved_changes p1 = true
  /\ snd (save p1) = [IOTouch sample_path; IOWrite sample_path []].
Proof. repeat split. Qed.

(** C2, amended. In a preset with a path, whose dict files every mapping
    under the mapping's own combination and none of whose mappings [save]
    skips, [save] succeeds and leaves the mappings alone; it writes the file
    if there were unsaved changes; afterwards there are none, and a second
    [save] changes nothing and only repeats the [touch] of the path. *)
Theorem second_save_only_touches
    (p : Preset) (path : Path)
    (Hpath : _path p = Some path)
    (Hset : path_unset (_path p) = false)
    (Hwf : mwf (_mappings p))
    (Hkeyed : keyed_by_combination (_mappings p))
    (Hnoskip : forall m, In m (Preset_iter p) ->
                         save_visit (Preset_iter p) m <> Ok Skipped) :
  let p1 := snd (fst (save p)) in
  fst (fst (save p)) = Ok tt
  /\ _mappings p1 = _mappings p
  /\ (exists json_ready,
        snd (save p)
        = if has_unsaved_changes p
          then [IOTouch path; IOWrite path json_ready]
          else [IOTouch path])
  /\ has_unsaved_changes p1 = false
  /\ save p1 = (Ok tt, p1, [IOTouch path]).
Proof.
  assert (forall q, _path q = Some path -> has_unsaved_changes q = false ->
                    save q = (Ok tt, q, [IOTouch path])) as Hclean.
  { intros q Hq Hu. unfold save. rewrite Hq.
    assert (path_unset (Some path) = false) as ->
      by (rewrite <- Hpath; exact Hset).
    rewrite Hu. reflexivity. }
  destruct (has_unsaved_changes p) eqn:Hu.
  - destruct (save_loop_records_all (Preset_iter p) [] (_mappings p) []
                Hwf Hkeyed Hnoskip) as [j Hloop].
    simpl in Hloop.
    assert (save p = (Ok tt,
                      mkPreset (_mappings p) (snapshot (_mappings p)) (_path p),
                      [IOTouch path; IOWrite path j])) as Hsave.
    { unfold save. rewrite Hset, Hu. rewrite Hpath at 1. simpl.
      unfold Preset_iter at 2. rewrite Hloop. reflexivity. }
    rewrite Hsave. simpl.
    assert (has_unsaved_changes
              (mkPreset (_mappings p) (snapshot (_mappings p)) (_path p))
            = false) as Hu1.
    { unfold has_unsaved_changes. simpl.
      rewrite (snapshot_equals_dict _ Hwf Hkeyed). reflexivity. }
    split; [reflexivity|]. split; [reflexivity|].
    split; [exists j; reflexivity|]. split; [exact Hu1|].
    apply Hclean; [exact Hpath|exact Hu1].
  - rewrite (Hclean p Hpath Hu). simpl.
    split; [reflexivity|]. split; [reflexivity|].
    split; [exists []; reflexivity|]. split; [exact Hu|].
    apply Hclean; assumption.
Qed.

(** ** The invariant is kept by the methods that edit the dict *)

Lemma no_permuted_keys_snoc (d : MappingsDict) (k : EventCombination)
    (m : Mapping) :
  no_permuted_keys d ->
  (forall k', In k' (dict_keys d) -> ~ same_trigger k k') ->
  no_permuted_keys (d ++ [(k, m)]).
Proof.
  induction d as [|[k0 m0] d IH]; simpl; intros Hinv Hk.
  - split; [intros ? []|exact I].
  - destruct Hinv as [Hk0 Hd]. split.
    + intros k' Hk'. unfold dict_keys in Hk'. rewrite map_app in Hk'.
      apply in_app_or in Hk'. destruct Hk' as [Hk'|[<-|[]]].
      * apply Hk0. exact Hk'.
      * simpl. intros Hst. apply (Hk k0 (or_introl eq_refl)).
        apply same_trigger_sym. exact Hst.
    + apply IH; [exact Hd|]. intros k' Hk'. apply Hk. right. exact Hk'.
Qed.

Lemma no_permuted_keys_pop (d rest : MappingsDict) (k : EventCombination)
    (m : Mapping) :
  mpop k d = Some (m, rest) -> no_permuted_keys d -> no_permuted_keys rest.
Proof.
  revert rest; induction d as [|[k0 m0] d IH]; intros rest; simpl;
    [discriminate|].
  destruct (EventCombination_eqb k0 k).
  - intros H [_ Hd]. inversion H; subst. exact Hd.
  - destruct (mpop k d) as [[r d']|] eqn:Hpop; [|discriminate].
    intros H [Hk0 Hd]. inversion H; subst. simpl. split.
    + intros k' Hk'. apply Hk0.
      destruct (mpop_Some _ _ _ _ Hpop) as (_ & _ & Hkeys & _).
      apply Hkeys. exact Hk'.
    + apply (IH d' eq_refl Hd).
Qed.

Lemma add_keeps_invariant (p : Preset) (m : Mapping) :
  no_permuted_keys (_mappings p) ->
  no_permuted_keys (_mappings (snd (add p m))).
Proof.
  intros Hinv. unfold add. destruct (event_combination m) as [c|]; [|exact Hinv].
  destruct (existsb _ (get_permutations c)) eqn:E; [exact Hinv|].
  pose proof (proj1 (no_permutation_stored _ _) E) as Hfresh. simpl.
  rewrite mset_fresh.
  - apply no_permuted_keys_snoc; assumption.
  - apply mget_None_iff. intros k Hk Heq. apply (Hfresh k Hk).
    apply same_trigger_key. symmetry. exact Heq.
Qed.


Lemma rename_keeps_invariant (p : Preset) (new old : EventCombination) :
  no_permuted_keys (_mappings p) ->
  no_permuted_keys (_mappings (snd (_combination_changed_callback p new old))).
Proof.
  intros Hinv. unfold _combination_changed_callback.
  destruct (existsb _ (get_permutations new)) eqn:E; [exact Hinv|].
  destruct (mpop old (_mappings p)) as [[m rest]|] eqn:Hpop; [|exact Hinv].
  simpl.
  destruct (mpop_Some _ _ _ _ Hpop) as (_ & _ & Hkeys & Hwf).
  destruct (Hwf (no_permuted_keys_wf _ Hinv)) as [Hgone _].
  assert (forall k, In k (dict_keys rest) -> ~ same_trigger new k) as Hfresh.
  { intros k Hk Hst.
    destruct (EventCombination_eqb k old) eqn:Eo.
    - apply EventCombination_eqb_eq in Eo.
      exact (proj1 (mget_None_iff old rest) Hgone k Hk Eo).
    - assert (existsb (fun permutation =>
                         mmem permutation (_mappings p)
                         && negb (EventCombination_eqb permutation old))
                      (get_permutations new) = true) as E'.
      { apply rename_collides. exists k. split; [apply Hkeys, Hk|].
        split; [exact Hst|]. intros Heq.
        apply EventCombination_eqb_eq in Heq. congruence. }
      congruence. }
  rewrite mset_fresh.
  - apply no_permuted_keys_snoc; [|exact Hfresh].
    apply (no_permuted_keys_pop _ _ _ _ Hpop Hinv).
  - apply mget_None_iff. intros k Hk Heq. apply (Hfresh k Hk).
    apply same_trigger_key. symmetry. exact Heq.
Qed.

Lemma add_keeps_keys_in_step (p : Preset) (m : Mapping) :
  keyed_by_combination (_mappings p) ->
  keyed_by_combination (_mappings (snd (add p m))).
Proof.
  intros Hkeyed. unfold add.
  destruct (event_combination m) as [c|] eqn:Hc; [|exact Hkeyed].
  destruct (existsb _ (get_permutations c)) eqn:E; [exact Hkeyed|].
  pose proof (proj1 (no_permutation_stored _ _) E) as Hfresh. simpl.
  rewrite mset_fresh.
  - intros k m' Hin. apply in_app_or in Hin. destruct Hin as [Hin|[Heq|[]]].
    + apply Hkeyed. exact Hin.
    + inversion Heq; subst. simpl. rewrite Hc. simpl.
      apply EventCombination_eqb_refl.
  - apply mget_None_iff. intros k Hk Heq. apply (Hfresh k Hk).
    apply same_trigger_key. symmetry. exact Heq.
Qed.

(** ** The theorems at work on the sample preset *)

Lemma sample_preset_invariant : no_permuted_keys (_mappings sample_preset).
Proof.
  unfold sample_preset. apply add_keeps_invariant, add_keeps_invariant.
  exact I.
Qed.

Lemma get_mapping_ignores_order_witness :
  let stored :=
    set_combination_changed_callback ctrl_a PresetCombinationChanged in
  get_mapping sample_preset (Some [KEY_A_down; KEY_LEFTCTRL_down])
  = Some stored
  /\ get_mapping sample_preset (Some [KEY_A_down]) = None.
Proof.
  destruct (get_mapping_ignores_order sample_preset
              [KEY_LEFTCTRL_down; KEY_A_down] [KEY_A_down; KEY_LEFTCTRL_down])
    as [Hstored _].
  destruct (get_mapping_ignores_order sample_preset [KEY_A_down] [KEY_A_down])
    as [_ Hnone].
  split.
  - apply (Hstored sample_preset_invariant _ eq_refl).
    + apply perm_swap.
    + discriminate.
  - apply Hnone. intros k [<-|[<-|[]]] H.
    + apply Permutation_length in H. discriminate.
    + apply Permutation_length_1 in H. discriminate.
Defined.

Lemma add_rejects_stored_permutations_witness :
  let swapped :=
    mkMapping (Combination [KEY_A_down; KEY_LEFTCTRL_down]) (Some "c"%string)
              true None in
  event_combination swapped = Combination [KEY_A_down; KEY_LEFTCTRL_down]
  /\ add sample_preset swapped = (Raise KeyError, sample_preset).
Proof.
  intros swapped. split; [reflexivity|].
  apply (add_rejects_stored_permutations sample_preset swapped
           [KEY_A_down; KEY_LEFTCTRL_down] eq_refl).
  exists [KEY_LEFTCTRL_down; KEY_A_down].
  split; [left; reflexivity|apply perm_swap].
Defined.

Lemma save_skips_invalid_unless_sole_occupant_witness :
  let stored :=
    set_combination_changed_callback disabled_s PresetCombinationChanged in
  In stored (Preset_iter sample_preset)
  /\ is_valid stored = false
  /\ save_visit (Preset_iter sample_preset) stored
     = Ok (Written [KEY_S_down] None disabled_s)
  /\ exists json_ready saved_mappings,
       save sample_preset
       = (Ok tt,
          mkPreset (_mappings sample_preset) saved_mappings
                   (Some sample_path),
          [IOTouch sample_path; IOWrite sample_path json_ready])
       /\ mget [KEY_S_down] saved_mappings = Some disabled_s
       /\ dict_get json_key_eqb [(1, 31, 1)] json_ready = Some None.
Proof.
  intros stored.
  assert (In stored (Preset_iter sample_preset)) as Hin
    by (right; left; reflexivity).
  assert (forall c, event_combination stored = Combination c ->
                    deduplicated c) as Hdedup.
  { intros c H. inversion H; subst.
    constructor; [intros []|constructor]. }
  destruct (save_skips_invalid_unless_sole_occupant sample_preset stored
              Hin eq_refl Hdedup) as [_ [_ [_ Hsole]]].
  destruct (Hsole [KEY_S_down] eq_refl eq_refl) as [Hvisit [_ Hwrites]].
  split; [exact Hin|]. split; [reflexivity|]. split; [exact Hvisit|].
  apply (Hwrites sample_path eq_refl eq_refl eq_refl).
  intros m' [<-|[<-|[]]] _; eexists; reflexivity.
Defined.

Lemma rename_callback_rekeys_or_rejects_witness :
  let old := [KEY_LEFTCTRL_down; KEY_A_down] in
  let stored :=
    set_combination_changed_callback ctrl_a PresetCombinationChanged in
  mget old (_mappings sample_preset) = Some stored
  /\ _combination_changed_callback sample_preset [KEY_S_down] old
     = (Raise KeyError, sample_preset)
  /\ mget [KEY_A_down; KEY_LEFTCTRL_down]
          (_mappings (snd (_combination_changed_callback sample_preset
                             [KEY_A_down; KEY_LEFTCTRL_down] old)))
     = Some stored.
Proof.
  intros old stored.
  assert (mwf (_mappings sample_preset)) as Hwf
    by (apply no_permuted_keys_wf, sample_preset_invariant).
  split; [reflexivity|]. split.
  - destruct (rename_callback_rekeys_or_rejects sample_preset [KEY_S_down] old
                stored Hwf eq_refl) as [Hreject _].
    apply Hreject. exists [KEY_S_down]. split; [right; left; reflexivity|].
    split; [apply Permutation_refl|discriminate].
  - destruct (rename_callback_rekeys_or_rejects sample_preset
                [KEY_A_down; KEY_LEFTCTRL_down] old stored Hwf eq_refl)
      as [_ Hrekey].
    destruct Hrekey as [rest [_ [_ [Hnew _]]]]; [|exact Hnew].
    intros k [<-|[<-|[]]] H; [reflexivity|].
    apply Permutation_length in H. discriminate.
Defined.

Lemma remove_tolerates_order_and_absence_witness :
  remove sample_preset [KEY_A_down] = (sample_preset, None)
  /\ mget [KEY_LEFTCTRL_down; KEY_A_down]
          (_mappings (fst (remove sample_preset
                             [KEY_A_down; KEY_LEFTCTRL_down])))
     = None.
Proof.
  split.
  - apply (remove_tolerates_order_and_absence sample_preset [KEY_A_down]).
    intros k [<-|[<-|[]]] H.
    + apply Permutation_length in H. discriminate.
    + apply Permutation_length_1 in H. discriminate.
  - destruct (remove_tolerates_order_and_absence sample_preset
                [KEY_A_down; KEY_LEFTCTRL_down]) as [_ Hstored].
    destruct Hstored as (x & m & rest & _ & _ & _ & Hrm & _ & _ & _ & Hclass).
    + exists [KEY_LEFTCTRL_down; KEY_A_down].
      split; [left; reflexivity|apply perm_swap].
    + rewrite Hrm. simpl.
      apply (Hclass sample_preset_invariant). apply perm_swap.
Defined.

Lemma second_save_only_touches_witness :
  let p1 := snd (fst (save sample_preset)) in
  _path sample_preset = Some sample_path
  /\ has_unsaved_changes sample_preset = true
  /\ has_unsaved_changes p1 = false
  /\ save p1 = (Ok tt, p1, [IOTouch sample_path]).
Proof.
  intros p1.
  assert (mwf (_mappings sample_preset)) as Hwf
    by (apply no_permuted_keys_wf, sample_preset_invariant).
  assert (keyed_by_combination (_mappings sample_preset)) as Hkeyed.
  { unfold sample_preset. apply add_keeps_keys_in_step, add_keeps_keys_in_step.
    intros k m []. }
  assert (forall m, In m (Preset_iter sample_preset) ->
                    save_visit (Preset_iter sample_preset) m <> Ok Skipped)
    as Hnoskip.
  { intros m [<-|[<-|[]]]; discriminate. }
  destruct (second_save_only_touches sample_preset sample_path eq_refl eq_refl
              Hwf Hkeyed Hnoskip) as (_ & _ & _ & Hclean & Hsecond).
  split; [reflexivity|]. split; [reflexivity|]. split; assumption.
Defined.

(** * More of the sources *)

(** ** InputEvent: what the constructors read back *)

Lemma split_on_comma_free (s : string) :
  comma_free s -> split_on ","%char s = [s].
Proof.
  induction s as [|c s IH]; simpl; intros H; [reflexivity|].
  destruct (Ascii.eqb_spec c ","%char) as [E|_].
  - exfalso. exact (H c (or_introl eq_refl) E).
  - rewrite IH; [reflexivity|]. intros c' Hc'. apply H. right. exact Hc'.
Qed.

Lemma split_on_append (a rest : string) :
  comma_free a ->
  split_on ","%char (String.append a (String ","%char rest))
  = a :: split_on ","%char rest.
Proof.
  induction a as [|c a IH]; simpl; intros H; [reflexivity|].
  destruct (Ascii.eqb_spec c ","%char) as [E|_].
  - exfalso. exact (H c (or_introl eq_refl) E).
  - rewrite IH; [reflexivity|]. intros c' Hc'. apply H. right. exact Hc'.
Qed.

(** Splitting undoes joining when no piece holds a comma. *)
Lemma split_join3 (a b c : string) :
  comma_free a -> comma_free b -> comma_free c ->
  split_on ","%char (join ","%string [a; b; c]) = [a; b; c].
Proof.
  intros Ha Hb Hc. simpl.
  rewrite (split_on_append a _ Ha), (split_on_append b _ Hb).
  rewrite (split_on_comma_free c Hc). reflexivity.
Qed.

Lemma string_of_uint_comma_free (d : Decimal.uint) :
  comma_free (DecimalString.NilEmpty.string_of_uint d).
Proof.
  induction d; simpl; intros c Hc;
    try contradiction;
    (destruct Hc as [<-|Hc]; [discriminate|apply IHd; exact Hc]).
Qed.

Lemma py_str_comma_free (n : Z) : comma_free (py_str n).
Proof.
  unfold py_str.
  assert (forall d, comma_free (DecimalString.NilZero.string_of_uint d)) as Hu.
  { intros d. destruct d; try apply string_of_uint_comma_free.
    intros c [<-|[]]. discriminate. }
  destruct (Z.to_int n) as [d|d]; simpl.
  - apply Hu.
  - intros c [<-|Hc]; [discriminate|]. apply (Hu d c Hc).
Qed.

(** The decimal reader reads back what [str] prints. *)
Lemma decimal_int_py_str (n : Z) : decimal_int (py_str n) = Some n.
Proof.
  unfold decimal_int, py_str.
  rewrite DecimalString.NilZero.isi.
  - simpl. rewrite DecimalZ.of_to. reflexivity.
  - destruct n; simpl; try discriminate.
    intros H. inversion H as [H']. exact (DecimalPos.Unsigned.to_uint_nonnil _ H').
  - destruct n; simpl; try discriminate.
    intros H. inversion H as [H']. exact (DecimalPos.Unsigned.to_uint_nonnil _ H').
Qed.

Section ConstructorFacts.
Variable py_int : string -> option Z.
(** All that is asked of [int]: it reads back what [str] prints. *)
Hypothesis py_int_py_str : forall n, py_int (py_str n) = Some n.

Lemma from_string_json_str (e : InputEvent) :
  from_string py_int (ArgStr (InputEvent_json_str e))
  = Some (mkInputEvent 0 0 (type e) (code e) (value e) none).
Proof.
  unfold from_string, InputEvent_json_str.
  rewrite split_join3 by apply py_str_comma_free.
  rewrite !py_int_py_str. reflexivity.
Qed.
End ConstructorFacts.

(** X1. Writing an event with [json_str] and reading the string back with
    [from_string], or with [validate], gives an event that is [==] the
    original: same type, code and value, the time set to 0 and the action
    tag to none. *)
Theorem from_string_reads_back_json_str
    (py_int : string -> option Z)
    (Hint : forall n, py_int (py_str n) = Some n) (e : InputEvent) :
  let e' := mkInputEvent 0 0 (type e) (code e) (value e) none in
  from_string py_int (ArgStr (InputEvent_json_str e)) = Some e'
  /\ validate py_int (ArgStr (InputEvent_json_str e)) = Ok e'
  /\ InputEvent_eqb e' e = true.
Proof.
  intros e'.
  pose proof (from_string_json_str py_int Hint e) as H.
  split; [exact H|]. split.
  - unfold validate. simpl from_event. rewrite H. reflexivity.
  - apply InputEvent_eqb_eq. reflexivity.
Qed.

Lemma from_string_reads_back_json_str_witness :
  (forall n, decimal_int (py_str n) = Some n)
  /\ validate decimal_int
       (ArgStr (InputEvent_json_str (mkInputEvent 17 250 EV_KEY 30 1 as_key)))
     = Ok (mkInputEvent 0 0 EV_KEY 30 1 none).
Proof.
  split; [exact decimal_int_py_str|].
  exact (proj1 (proj2 (from_string_reads_back_json_str decimal_int
                         decimal_int_py_str
                         (mkInputEvent 17 250 EV_KEY 30 1 as_key)))).
Defined.


Lemma py_str_digit (n : Z) :
  0 <= n <= 9 ->
  exists c, py_str n = String c EmptyString /\ c <> ","%char.
Proof.
  intros H.
  assert (In n (map Z.of_nat (seq 0 10))) as Hn.
  { apply in_map_iff. exists (Z.to_nat n). split; [lia|].
    apply in_seq. lia. }
  simpl in Hn.
  repeat (destruct Hn as [<-|Hn];
          [eexists; split; [reflexivity|discriminate]|]).
  contradiction.
Qed.

(** X3. A str of three digits and no comma is no 'type,code,value' string,
    yet [validate] accepts it: [from_string] fails on it and [from_tuple]
    then reads its three characters as type, code and value. *)
Theorem validate_reads_three_digits_as_event
    (py_int : string -> option Z)
    (Hint : forall n, py_int (py_str n) = Some n)
    (t c v : Z) (Ht : 0 <= t <= 9) (Hc : 0 <= c <= 9) (Hv : 0 <= v <= 9) :
  let s := String.append (py_str t) (String.append (py_str c) (py_str v)) in
  String.length s = 3%nat
  /\ from_string py_int (ArgStr s) = None
  /\ validate py_int (ArgStr s) = Ok (mkInputEvent 0 0 t c v none).
Proof.
  destruct (py_str_digit t Ht) as [ct [Et Nt]].
  destruct (py_str_digit c Hc) as [cc [Ec Nc]].
  destruct (py_str_digit v Hv) as [cv [Ev Nv]].
  pose proof (Hint t) as Pt. pose proof (Hint c) as Pc.
  pose proof (Hint v) as Pv.
  rewrite Et in *. rewrite Ec in *. rewrite Ev in *.
  cbv zeta. simpl String.append.
  assert (from_string py_int
            (ArgStr (String ct (String cc (String cv EmptyString)))) = None)
    as Hfs.
  { unfold from_string. rewrite split_on_comma_free; [reflexivity|].
    intros x [<-|[<-|[<-|[]]]]; assumption. }
  split; [reflexivity|]. split; [exact Hfs|].
  unfold validate. simpl from_event. rewrite Hfs.
  unfold from_tuple, from_items, int_of_item. rewrite Pt, Pc, Pv. reflexivity.
Qed.

Lemma validate_reads_three_digits_as_event_witness :
  validate decimal_int (ArgStr "123"%string)
  = Ok (mkInputEvent 0 0 1 2 3 none).
Proof.
  exact (proj2 (proj2 (validate_reads_three_digits_as_event decimal_int
                         decimal_int_py_str 1 2 3
                         ltac:(lia) ltac:(lia) ltac:(lia)))).
Defined.

(** X4. [==] between InputEvents is an equivalence relation, and an event
    equals a tuple exactly when the tuple is its (type, code, value). *)
Theorem InputEvent_eq_is_equivalence :
  (forall a, InputEvent_eqb a a = true)
  /\ (forall a b, InputEvent_eqb a b = InputEvent_eqb b a)
  /\ (forall a b c, InputEvent_eqb a b = true -> InputEvent_eqb b c = true ->
                    InputEvent_eqb a c = true)
  /\ (forall a items, __eq__ a (OTuple items) = true
                      <-> items = [type a; code a; value a]).
Proof.
  split; [exact InputEvent_eqb_refl|]. split; [|split].
  - intros a b. apply eq_true_iff_eq. rewrite !InputEvent_eqb_eq.
    split; intros H; symmetry; exact H.
  - intros a b c. rewrite !InputEvent_eqb_eq. congruence.
  - intros a items. unfold __eq__.
    destruct items as [|t [|c [|v [|w items]]]];
      try (split; intros H; discriminate H).
    rewrite tuple3_eqb_eq. unfold event_tuple. split.
    + intros H. inversion H. reflexivity.
    + intros H. inversion H. reflexivity.
Qed.

(** ** handle_keycode on a stream of events *)

Section KeycodeMapperFacts.
Context {Macro : Type}.
Variables (EV : dict Z string) (code_code_mapping : dict Z Z)
          (macros : dict Z Macro).

Lemma written_app (t1 t2 : list (Effect Macro)) :
  written (t1 ++ t2) = written t1 ++ written t2.
Proof.
  induction t1 as [|[m|t c v|] t1 IH]; simpl; rewrite ?IH; reflexivity.
Qed.

(** One call: it raises KeyError exactly for a mapped code whose event
    type the table does not name, and otherwise does what the event asks
    for. *)
Lemma handle_keycode_cases (event : InputEvent) :
  if unnamed_type_of_mapped_code EV code_code_mapping macros event
  then handle_keycode EV code_code_mapping macros event = Raise KeyError
  else exists done,
         handle_keycode EV code_code_mapping macros event = Ok done
         /\ written done
            = (if reaches_uinput macros event
               then [output_of code_code_mapping event] else [])
         /\ filter (fun e => negb (is_macro_run e)) done
            = flat_map (fun w => [UWrite (fst (fst w)) (snd (fst w)) (snd w);
                                  USyn])
                       (written done)
         /\ filter is_macro_run done
            = map EnsureFuture (macro_started macros event).
Proof.
  unfold unnamed_type_of_mapped_code, reaches_uinput, handle_keycode,
    output_of, macro_started, dict_mem.
  destruct (value event =? 2) eqn:E2; simpl.
  - apply Z.eqb_eq in E2. rewrite E2. simpl.
    exists []. repeat split; reflexivity.
  - destruct (dict_get Z.eqb (code event) macros) as [m|]; simpl.
    + destruct (value event =? 1); simpl; eexists; repeat split; reflexivity.
    + destruct (dict_get Z.eqb (code event) code_code_mapping) as [target|];
        simpl.
      * destruct (dict_get Z.eqb (type event) EV) as [name|]; simpl;
          [|reflexivity].
        destruct (value event =? 1); eexists; repeat split; reflexivity.
      * destruct (value event =? 1); eexists; repeat split; reflexivity.
Qed.
End KeycodeMapperFacts.

(** X5. [handle_keycode] is called on the events of a stream in turn.  A
    call raises KeyError, before writing anything, exactly for an event
    that is no hold, has no macro under its code, has a mapped code, and
    whose type [evdev.ecodes.EV] does not name; the stream ends there.  For
    the events before that one, what is written to uinput is, in order, one
    write per event that is no hold and has no macro under its code: as
    EV_KEY with the mapped code if the code is mapped, as it came otherwise,
    the value unchanged.  So a hold (value 2) is never written, and every
    write is followed by its own syn. *)
Theorem handle_keycodes_writes
    (Macro : Type) (EV : dict Z string) (code_code_mapping : dict Z Z)
    (macros : dict Z Macro) (events : list InputEvent) :
  let run := handle_keycodes EV code_code_mapping macros events in
  let handled := handled_events EV code_code_mapping macros events in
  snd run
  = (if forallb (fun e => negb (unnamed_type_of_mapped_code
                                  EV code_code_mapping macros e)) events
     then Ok tt else Raise KeyError)
  /\ written (fst run)
     = map (output_of code_code_mapping)
           (filter (reaches_uinput macros) handled)
  /\ Forall (fun w => snd w <> 2) (written (fst run))
  /\ filter (fun e => negb (is_macro_run e)) (fst run)
     = flat_map (fun w => [UWrite (fst (fst w)) (snd (fst w)) (snd w); USyn])
                (written (fst run)).
Proof.
  intros run handled.
  assert (written (fst run)
          = map (output_of code_code_mapping)
                (filter (reaches_uinput macros) handled)) as Hw.
  { unfold run, handled.
    induction events as [|e events IH]; simpl; [reflexivity|].
    pose proof (handle_keycode_cases EV code_code_mapping macros e) as He.
    destruct (unnamed_type_of_mapped_code EV code_code_mapping macros e).
    - rewrite He. reflexivity.
    - destruct He as (done & -> & Hd & _). simpl.
      rewrite written_app, Hd, IH.
      destruct (reaches_uinput macros e); reflexivity. }
  split; [|split; [exact Hw|split]].
  - unfold run. clear Hw run handled.
    induction events as [|e events IH]; simpl; [reflexivity|].
    pose proof (handle_keycode_cases EV code_code_mapping macros e) as He.
    destruct (unnamed_type_of_mapped_code EV code_code_mapping macros e).
    + rewrite He. reflexivity.
    + destruct He as (done & -> & _). simpl. exact IH.
  - rewrite Hw. apply Forall_forall. intros w Hin.
    apply in_map_iff in Hin. destruct Hin as [e [<- He]].
    apply filter_In in He. destruct He as [_ He].
    unfold reaches_uinput in He. apply andb_true_iff in He.
    destruct He as [He _]. apply negb_true_iff, Z.eqb_neq in He.
    unfold output_of.
    destruct (dict_get Z.eqb (code e) code_code_mapping); exact He.
  - unfold run. clear Hw run handled.
    induction events as [|e events IH]; simpl; [reflexivity|].
    pose proof (handle_keycode_cases EV code_code_mapping macros e) as He.
    destruct (unnamed_type_of_mapped_code EV code_code_mapping macros e).
    + rewrite He. reflexivity.
    + destruct He as (done & -> & _ & Hs & _). simpl.
      rewrite filter_app, written_app, flat_map_app, Hs, IH. reflexivity.
Qed.

(** X6. [handle_keycode] is called on the events of a stream in turn, up
    to the first call that raises (a mapped code whose event type
    [evdev.ecodes.EV] does not name).  The macros started are, in order,
    one per key-down (value 1) of a code that has a macro among the events
    before that call, whatever code_code_mapping says of that code; a
    release or a hold starts none, and the call of a macro key never
    raises. *)
Theorem handle_keycodes_macro_runs
    (Macro : Type) (EV : dict Z string) (code_code_mapping : dict Z Z)
    (macros : dict Z Macro) (events : list InputEvent) :
  filter is_macro_run (fst (handle_keycodes EV code_code_mapping macros events))
  = map EnsureFuture
        (flat_map (macro_started macros)
                  (handled_events EV code_code_mapping macros events))
  /\ forall e, dict_mem Z.eqb (code e) macros = true ->
               handle_keycode EV code_code_mapping macros e
               = Ok (if value e =? 1
                     then map EnsureFuture (macro_started macros e) else []).
Proof.
  split.
  - induction events as [|e events IH]; simpl; [reflexivity|].
    pose proof (handle_keycode_cases EV code_code_mapping macros e) as He.
    destruct (unnamed_type_of_mapped_code EV code_code_mapping macros e).
    + rewrite He. reflexivity.
    + destruct He as (done & -> & _ & _ & Hm). simpl.
      rewrite filter_app, map_app, Hm, IH. reflexivity.
  - intros e He. unfold dict_mem in He.
    unfold handle_keycode, macro_started.
    destruct (value e =? 2) eqn:E2.
    + apply Z.eqb_eq in E2. rewrite E2. reflexivity.
    + destruct (dict_get Z.eqb (code e) macros) as [m|]; [|discriminate].
      destruct (value e =? 1); reflexivity.
Qed.

(** ** MappingHandler: claiming events *)

(** X7. [occlude_input_event] succeeds exactly when some watched event is
    [==] the given one, whatever their time stamps and action tags; it then
    takes out the first such event and nothing else, and leaves the mapping
    and the sub-handler alone. *)
Theorem occlude_input_event_succeeds_iff
    (InputEventHandler : Type) (h h' : @MappingHandler InputEventHandler)
    (e : InputEvent) :
  occlude_input_event h e = Ok h'
  <-> exists l1 x l2,
        input_events h = l1 ++ x :: l2
        /\ InputEvent_eqb x e = true
        /\ (forall y, In y l1 -> InputEvent_eqb y e = false)
        /\ h' = mkMappingHandler (mapping h) (l1 ++ l2) (_sub_handler h).
Proof.
  unfold occlude_input_event. split.
  - destruct (input_events h) as [|y l] eqn:El; [discriminate|].
    destruct (list_remove e (y :: l)) as [r|] eqn:Er; [|discriminate].
    intros H. inversion H; subst.
    apply list_remove_Some in Er. destruct Er as (l1 & x & l2 & E & -> & Hx & Hl1).
    exists l1, x, l2. auto.
  - intros (l1 & x & l2 & El & Hx & Hl1 & ->).
    assert (list_remove e (input_events h) = Some (l1 ++ l2)) as ->.
    { apply list_remove_Some. exists l1, x, l2. auto. }
    rewrite El. destruct l1; reflexivity.
Qed.

Lemma occlude_all_matching
    (InputEventHandler : Type) (m : Mapping) (sub : option InputEventHandler)
    (watched events : list InputEvent) :
  Forall2 (fun w e => InputEvent_eqb w e = true) watched events ->
  occlude_all (mkMappingHandler m watched sub) events
  = Ok (mkMappingHandler m [] sub).
Proof.
  induction 1 as [|w e watched events Hwe _ IH]; simpl; [reflexivity|].
  unfold occlude_input_event. simpl. rewrite Hwe. simpl. exact IH.
Qed.

(** X8. A handler built for a combination lets a wrapping handler claim
    the combination's events one by one, in their order: every call
    succeeds although the stored events carry the as_key tag, the watch list
    ends up empty, and any further call raises MappingParsingError. *)
Theorem init_then_occlude_all_empties
    (InputEventHandler : Type) (combination : EventCombination)
    (m : Mapping) :
  occlude_all (@MappingHandler_init InputEventHandler combination m)
              combination
  = Ok (mkMappingHandler m [] None)
  /\ forall e, occlude_input_event
                 (@mkMappingHandler InputEventHandler m [] None) e
               = Raise MappingParsingError.
Proof.
  split; [|reflexivity].
  unfold MappingHandler_init. apply occlude_all_matching.
  induction combination as [|e c IH]; simpl; constructor; [|exact IH].
  apply InputEvent_eqb_eq. destruct (value e =? 0); reflexivity.
Qed.

(** ** common_data *)

Lemma common_data_row {A B : Type} (eq : A -> B -> bool) (x : A)
    (l2 : list B) :
  flat_map (fun y => if eq x y then [x] else []) l2
  = repeat x (length (filter (eq x) l2)).
Proof.
  induction l2 as [|y l2 IH]; simpl; [reflexivity|].
  destruct (eq x y); simpl; rewrite IH; reflexivity.
Qed.

(** X9. [common_data] keeps the items of the first list in their order,
    each repeated once per item of the second list it is equal to: an item
    is in the result exactly when it is in the first list and equal to some
    item of the second, and it is there more than once when the second list
    holds several such items. *)
Theorem common_data_repeats_per_match
    (A B : Type) (eq : A -> B -> bool) (list1 : list A) (list2 : list B) :
  common_data eq list1 list2
  = flat_map (fun x => repeat x (length (filter (eq x) list2))) list1
  /\ (forall x, In x (common_data eq list1 list2)
                <-> In x list1 /\ exists y, In y list2 /\ eq x y = true).
Proof.
  assert (common_data eq list1 list2
          = flat_map (fun x => repeat x (length (filter (eq x) list2))) list1)
    as H.
  { induction list1 as [|x rest IH]; simpl; [reflexivity|].
    rewrite common_data_row, IH. reflexivity. }
  split; [exact H|].
  intros x. rewrite H, in_flat_map. split.
  - intros [x' [Hx' Hin]]. apply repeat_spec in Hin as Heq. subst x'.
    split; [exact Hx'|].
    destruct (filter (eq x) list2) as [|y F] eqn:HF; [contradiction|].
    assert (In y (filter (eq x) list2)) as Hy by (rewrite HF; left; reflexivity).
    apply filter_In in Hy. exists y. exact Hy.
  - intros [Hx [y [Hy Hxy]]]. exists x. split; [exact Hx|].
    assert (In y (filter (eq x) list2)) as Hf by (apply filter_In; auto).
    destruct (filter (eq x) list2) as [|z F]; [contradiction|].
    left. reflexivity.
Qed.

(** ** Preset: what every sequence of edits keeps *)




(** ** Preset: how the methods compose *)

Lemma existsb_find {A : Type} (f : A -> bool) (l : list A) :
  existsb f l = true -> exists x, find f l = Some x.
Proof.
  induction l as [|a l IH]; simpl; [discriminate|].
  destruct (f a); [intros _; exists a; reflexivity|exact IH].
Qed.

Lemma mget_snoc (d : MappingsDict) (c x : EventCombination) (v : Mapping) :
  mget x d = None ->
  mget x (d ++ [(c, v)]) = if EventCombination_eqb c x then Some v else None.
Proof.
  induction d as [|[k0 m0] d IH]; simpl; [reflexivity|].
  destruct (EventCombination_eqb k0 x); [discriminate|exact IH].
Qed.

Lemma mpop_snoc (d : MappingsDict) (c x : EventCombination) (v : Mapping) :
  mget x d = None -> EventCombination_eqb c x = true ->
  mpop x (d ++ [(c, v)]) = Some (v, d).
Proof.
  induction d as [|[k0 m0] d IH]; simpl; intros Hx Hc.
  - rewrite Hc. reflexivity.
  - destruct (EventCombination_eqb k0 x); [discriminate|].
    rewrite (IH Hx Hc). reflexivity.
Qed.

Lemma mpop_length (d rest : MappingsDict) (k : EventCombination)
    (m : Mapping) :
  mpop k d = Some (m, rest) -> length d = S (length rest).
Proof.
  revert rest; induction d as [|[k0 m0] d IH]; intros rest; simpl;
    [discriminate|].
  destruct (EventCombination_eqb k0 k).
  - intros H; inversion H; reflexivity.
  - destruct (mpop k d) as [[r d']|]; [|discriminate].
    intros H; inversion H; subst. simpl. rewrite (IH d' eq_refl). reflexivity.
Qed.

Lemma Permutation_same_trigger (c x : EventCombination) :
  Permutation c x -> same_trigger c x.
Proof. intros H. unfold same_trigger, key_of. apply Permutation_map, H. Qed.

(** What [add] does when no permutation of the combination is stored. *)
Lemma add_fresh (p : Preset) (m : Mapping) (c : EventCombination) :
  event_combination m = Combination c ->
  (forall k, In k (dict_keys (_mappings p)) -> ~ same_trigger c k) ->
  add p m
  = (Ok tt,
     mkPreset (_mappings p
               ++ [(c, set_combination_changed_callback m
                         PresetCombinationChanged)])
              (_saved_mappings p) (_path p)).
Proof.
  intros Hc Hfresh. unfold add. rewrite Hc.
  rewrite (proj2 (no_permutation_stored c _) Hfresh).
  rewrite mset_fresh; [reflexivity|].
  apply mget_None_iff. intros k Hk Heq. apply (Hfresh k Hk).
  apply same_trigger_key. symmetry. exact Heq.
Qed.

(** X11. Adding a mapping and then removing its combination, given in any
    order of its events, gives back the very preset there was before, and
    the mapping leaves without the callback. *)
Theorem add_then_remove_restores
    (p : Preset) (m : Mapping) (c c' : EventCombination)
    (Hc : event_combination m = Combination c)
    (Hfresh : forall k, In k (dict_keys (_mappings p)) -> ~ same_trigger c k)
    (Hperm : same_trigger c c') :
  fst (add p m) = Ok tt
  /\ remove (snd (add p m)) c'
     = (p, Some (remove_combination_changed_callback m)).
Proof.
  rewrite (add_fresh p m c Hc Hfresh). simpl. split; [reflexivity|].
  set (m' := set_combination_changed_callback m PresetCombinationChanged).
  set (d' := _mappings p ++ [(c, m')]).
  assert (forall x, same_trigger c x -> mget x (_mappings p) = None) as Hnone.
  { intros x Hx. apply mget_None_iff. intros k Hk Heq. apply (Hfresh k Hk).
    apply same_trigger_trans with x; [exact Hx|].
    apply same_trigger_key. symmetry. exact Heq. }
  assert (existsb (fun permutation => mmem permutation d')
                  (get_permutations c') = true) as Hex.
  { apply any_permutation_stored. exists c. split.
    - unfold d', dict_keys. rewrite map_app. apply in_or_app. right.
      left. reflexivity.
    - apply same_trigger_sym. exact Hperm. }
  destruct (existsb_find _ _ Hex) as [x Hfind].
  pose proof (find_some _ _ Hfind) as [Hx Hmem].
  assert (same_trigger c x) as Hcx.
  { apply same_trigger_trans with c'; [exact Hperm|].
    apply Permutation_same_trigger, get_permutations_spec, Hx. }
  assert (EventCombination_eqb c x = true) as Hceq.
  { unfold dict_mem, d' in Hmem. rewrite (mget_snoc _ c x m' (Hnone x Hcx)) in Hmem.
    destruct (EventCombination_eqb c x); [reflexivity|discriminate]. }
  unfold remove. simpl _mappings. fold d'. rewrite Hfind.
  unfold d'. rewrite (mpop_snoc _ c x m' (Hnone x Hcx) Hceq).
  simpl. destruct p; reflexivity.
Qed.

Lemma add_then_remove_restores_witness :
  let chord :=
    mkMapping (Combination [KEY_LEFTCTRL_down; KEY_S_down]) (Some "x"%string)
              true None in
  remove (snd (add sample_preset chord)) [KEY_S_down; KEY_LEFTCTRL_down]
  = (sample_preset, Some chord).
Proof.
  intros chord.
  refine (proj2 (add_then_remove_restores sample_preset chord
                   [KEY_LEFTCTRL_down; KEY_S_down]
                   [KEY_S_down; KEY_LEFTCTRL_down] eq_refl _ _)).
  - intros k [<-|[<-|[]]] H.
    + unfold same_trigger in H. cbn in H. apply Permutation_length_2 in H.
      destruct H as [[_ H]|[H _]]; discriminate.
    + apply Permutation_length in H. discriminate.
  - apply perm_swap.
Defined.

Lemma get_mapping_absent (p : Preset) (c : EventCombination) :
  (forall x, same_trigger c x -> mget x (_mappings p) = None) ->
  get_mapping p (Some c) = None.
Proof.
  intros H. destruct c as [|e c]; [reflexivity|].
  rewrite get_mapping_nonempty by discriminate.
  apply first_existing_None. intros x Hx. apply H.
  apply Permutation_same_trigger, get_permutations_spec, Hx.
Qed.

(** Once the item under [x] is popped, nothing of [x]'s permutation class
    is left. *)
Lemma mpop_class_gone (d rest : MappingsDict) (x : EventCombination)
    (m : Mapping) :
  no_permuted_keys d -> mpop x d = Some (m, rest) ->
  forall k, same_trigger x k -> mget k rest = None.
Proof.
  intros Hinv Hpop k Hk.
  destruct (mpop_Some _ _ _ _ Hpop) as (Hget & Hother & _ & Hwf).
  destruct (Hwf (no_permuted_keys_wf _ Hinv)) as [Hgone _].
  pose proof (mget_same_trigger _ x k m Hinv Hget Hk) as Hk'.
  destruct (EventCombination_eqb x k) eqn:E.
  - apply EventCombination_eqb_eq in E. rewrite <- (mget_key x k rest E).
    exact Hgone.
  - rewrite (Hother k E). exact Hk'.
Qed.

(** The two ways [remove] can go. *)
Lemma remove_result (p : Preset) (c : EventCombination) :
  (remove p c = (p, None)
   /\ forall x, same_trigger c x -> mget x (_mappings p) = None)
  \/ exists x m rest,
       same_trigger c x
       /\ mpop x (_mappings p) = Some (m, rest)
       /\ remove p c
          = (mkPreset rest (_saved_mappings p) (_path p),
             Some (remove_combination_changed_callback m)).
Proof.
  unfold remove.
  destruct (find (fun permutation => mmem permutation (_mappings p))
                 (get_permutations c)) as [x|] eqn:Hfind.
  - right. destruct (find_stored_permutation _ _ _ Hfind) as [Hx [m Hm]].
    destruct (mpop x (_mappings p)) as [[m0 rest]|] eqn:Hpop.
    + exists x, m0, rest. split; [apply Permutation_same_trigger, Hx|].
      split; [exact Hpop|reflexivity].
    + apply mpop_None in Hpop. congruence.
  - left.
    assert (forall x, same_trigger c x -> mget x (_mappings p) = None) as H.
    { intros x Hx. apply mmem_false_iff.
      apply get_permutations_same_trigger in Hx. destruct Hx as [y [Hy Heq]].
      apply EventCombination_eqb_eq in Heq.
      unfold dict_mem. rewrite <- (mget_key y x _ Heq).
      exact (find_none _ _ Hfind y Hy). }
    split; [|exact H].
    assert (mpop c (_mappings p) = None) as ->; [|reflexivity].
    apply mpop_None, H, same_trigger_refl.
Qed.

(** X12. In a preset that holds no two permutations of one combination,
    once a combination is removed [get_mapping] finds nothing under it, in
    whatever order its events are given, whether or not something was
    stored. *)
Theorem remove_then_get_mapping_finds_nothing
    (p : Preset) (c c' : EventCombination)
    (Hinv : no_permuted_keys (_mappings p))
    (Hperm : same_trigger c c') :
  get_mapping (fst (remove p c)) (Some c') = None.
Proof.
  apply get_mapping_absent. intros x Hx.
  assert (same_trigger c x) as Hcx
    by (apply same_trigger_trans with c'; assumption).
  destruct (remove_result p c) as [[-> Hnone]|(y & m & rest & Hy & Hpop & ->)].
  - apply Hnone, Hcx.
  - simpl. apply (mpop_class_gone _ _ y m Hinv Hpop).
    apply same_trigger_trans with c; [apply same_trigger_sym, Hy|exact Hcx].
Qed.

Lemma remove_then_get_mapping_finds_nothing_witness :
  get_mapping (fst (remove sample_preset [KEY_A_down; KEY_LEFTCTRL_down]))
              (Some [KEY_LEFTCTRL_down; KEY_A_down])
  = None.
Proof.
  apply (remove_then_get_mapping_finds_nothing sample_preset
           [KEY_A_down; KEY_LEFTCTRL_down] [KEY_LEFTCTRL_down; KEY_A_down]
           sample_preset_invariant).
  apply perm_swap.
Defined.

(** What the rename callback does when no other key is in the way. *)
Lemma rename_result (p : Preset) (new old : EventCombination) (m : Mapping) :
  mwf (_mappings p) -> mget old (_mappings p) = Some m ->
  (forall k, In k (dict_keys (_mappings p)) -> same_trigger new k ->
             key_of k = key_of old) ->
  exists rest,
    mpop old (_mappings p) = Some (m, rest)
    /\ mget new rest = None
    /\ _combination_changed_callback p new old
       = (Ok tt, mkPreset (mset new m rest) (_saved_mappings p) (_path p)).
Proof.
  intros Hwf Hold Hfree.
  destruct (mpop old (_mappings p)) as [[m0 rest]|] eqn:Hpop.
  2:{ apply mpop_None in Hpop. congruence. }
  destruct (mpop_Some _ _ _ _ Hpop) as (Hget & _ & Hkeys & Hwf').
  assert (m0 = m) by congruence. subst m0.
  destruct (Hwf' Hwf) as [Hgone _].
  exists rest. split; [reflexivity|]. split.
  - apply mget_None_iff. intros k Hk Heq.
    assert (key_of k = key_of old) as Hko.
    { apply Hfree; [apply Hkeys, Hk|].
      apply same_trigger_key. symmetry. exact Heq. }
    exact (proj1 (mget_None_iff old rest) Hgone k Hk Hko).
  - unfold _combination_changed_callback.
    destruct (existsb _ (get_permutations new)) eqn:Hex.
    + apply rename_collides in Hex. destruct Hex as [k [Hk [Hst Hne]]].
      exfalso. exact (Hne (Hfree k Hk Hst)).
    + rewrite Hpop. reflexivity.
Qed.

(** X13. In a preset that holds no two permutations of one combination,
    after a rename that the callback accepts [get_mapping] finds the mapping
    under the new combination, in whatever order its events are given, and,
    unless old and new are permutations of each other, nothing any more
    under the old one. *)
Theorem rename_then_get_mapping
    (p : Preset) (new old new' : EventCombination) (m : Mapping)
    (Hinv : no_permuted_keys (_mappings p))
    (Hold : mget old (_mappings p) = Some m)
    (Hfree : forall k, In k (dict_keys (_mappings p)) -> same_trigger new k ->
                       key_of k = key_of old)
    (Hnew : new <> [])
    (Hperm : same_trigger new new') :
  let p' := snd (_combination_changed_callback p new old) in
  fst (_combination_changed_callback p new old) = Ok tt
  /\ get_mapping p' (Some new') = Some m
  /\ (~ same_trigger new old ->
      forall old', same_trigger old old' -> get_mapping p' (Some old') = None).
Proof.
  intros p'.
  pose proof (rename_keeps_invariant p new old Hinv) as Hinv'. fold p' in Hinv'.
  destruct (rename_result p new old m (no_permuted_keys_wf _ Hinv) Hold Hfree)
    as (rest & Hpop & Hfresh & Hcb).
  unfold p' in *. clear p'. rewrite Hcb in *. simpl snd in *. simpl fst.
  simpl _mappings in Hinv'.
  split; [reflexivity|]. split.
  - assert (new' <> []) as Hne'.
    { intros E. apply Hnew.
      exact (same_trigger_nil new' new (same_trigger_sym _ _ Hperm) E). }
    rewrite get_mapping_nonempty by exact Hne'. simpl _mappings.
    apply (first_existing_stored _ new new' m Hinv'); [|exact Hperm].
    rewrite mset_get, EventCombination_eqb_refl. reflexivity.
  - intros Hdiff old' Hold'. apply get_mapping_absent. simpl _mappings.
    intros x Hx.
    assert (same_trigger old x) as Hox
      by (apply same_trigger_trans with old'; assumption).
    rewrite mset_get.
    destruct (EventCombination_eqb new x) eqn:E.
    + exfalso. apply Hdiff. apply EventCombination_eqb_eq in E.
      apply same_trigger_trans with x; [apply same_trigger_key, E|].
      apply same_trigger_sym, Hox.
    + apply (mpop_class_gone _ _ old m Hinv Hpop x Hox).
Qed.

Lemma rename_then_get_mapping_witness :
  let renamed :=
    snd (_combination_changed_callback sample_preset
           [KEY_LEFTCTRL_down; KEY_S_down] [KEY_S_down]) in
  get_mapping renamed (Some [KEY_S_down; KEY_LEFTCTRL_down])
  = Some (set_combination_changed_callback disabled_s PresetCombinationChanged)
  /\ get_mapping renamed (Some [KEY_S_down]) = None.
Proof.
  intros renamed.
  destruct (rename_then_get_mapping sample_preset
              [KEY_LEFTCTRL_down; KEY_S_down] [KEY_S_down]
              [KEY_S_down; KEY_LEFTCTRL_down]
              (set_combination_changed_callback disabled_s
                 PresetCombinationChanged)
              sample_preset_invariant eq_refl)
    as (_ & Hnew & Hold).
  - intros k [<-|[<-|[]]] H.
    + unfold same_trigger in H. cbn in H. apply Permutation_length_2 in H.
      destruct H as [[_ H]|[H _]]; discriminate.
    + apply Permutation_length in H. discriminate.
  - discriminate.
  - apply perm_swap.
  - split; [exact Hnew|]. apply Hold; [|apply same_trigger_refl].
    intros H. apply Permutation_length in H. discriminate.
Defined.

(** X14. [empty] drops every mapping and keeps the path and the saved
    snapshot, so the preset reports unsaved changes exactly when something
    had been saved, and a [save] then writes an empty JSON object;
    [clear] also drops the snapshot and the path, so nothing is unsaved and
    [save] does nothing at all. *)
Theorem empty_and_clear_then_save (p : Preset) :
  (forall c, get_mapping (empty p) c = None)
  /\ (has_unsaved_changes (empty p) = true <-> _saved_mappings p <> [])
  /\ (forall path, _path p = Some path -> path_unset (_path p) = false ->
        _saved_mappings p <> [] ->
        save (empty p)
        = (Ok tt, mkPreset [] [] (_path p),
           [IOTouch path; IOWrite path []]))
  /\ has_unsaved_changes (clear p) = false
  /\ save (clear p) = (Ok tt, clear p, []).
Proof.
  assert (has_unsaved_changes (empty p) = true <-> _saved_mappings p <> [])
    as Hdirty.
  { unfold has_unsaved_changes, empty, dict_eqb. simpl.
    destruct (_saved_mappings p); simpl; split; congruence. }
  split; [|split; [exact Hdirty|split; [|split; reflexivity]]].
  - intros [c|]; [|reflexivity].
    apply get_mapping_absent. intros x _. reflexivity.
  - intros path Hpath Hset Hsaved. apply Hdirty in Hsaved.
    unfold save. simpl _path. rewrite Hset, Hsaved. rewrite Hpath at 1.
    reflexivity.
Qed.

(** ** Preset.save: a valid preset is written in full *)

Lemma dict_set_fresh {K V : Type} (keq : K -> K -> bool) (k : K) (v : V)
    (d : dict K V) :
  dict_get keq k d = None -> dict_set keq k v d = d ++ [(k, v)].
Proof.
  induction d as [|[k0 v0] d IH]; simpl; [reflexivity|].
  destruct (keq k0 k); [discriminate|]. intros H. rewrite (IH H). reflexivity.
Qed.

Lemma json_get_fresh (d : MappingsDict) (c : EventCombination) :
  (forall k m, In (k, m) d -> key_of (combination_of m) <> key_of c) ->
  dict_get json_key_eqb (json_str c) (json_of d) = None.
Proof.
  induction d as [|[k0 m0] d IH]; simpl; intros H; [reflexivity|].
  destruct (json_key_eqb (json_str (combination_of m0)) (json_str c)) eqn:E.
  - apply json_key_eqb_eq in E. exfalso.
    exact (H k0 m0 (or_introl eq_refl) E).
  - apply IH. intros k m Hin. apply (H k m). right. exact Hin.
Qed.

Lemma save_loop_writes_all (ms : list Mapping) (d1 d2 : MappingsDict) :
  mwf (d1 ++ d2) -> keyed_by_combination (d1 ++ d2) ->
  (forall m, In m (dict_values d2) -> save_visit ms m <> Ok Skipped) ->
  save_loop ms (dict_values d2) (json_of d1) (snapshot d1)
  = Ok (json_of (d1 ++ d2), snapshot (d1 ++ d2)).
Proof.
  revert d1; induction d2 as [|[k m] d2 IH]; intros d1 Hwf Hkeyed Hnoskip.
  - rewrite app_nil_r. reflexivity.
  - simpl.
    assert (In (k, m) (d1 ++ (k, m) :: d2)) as Hin
      by (apply in_or_app; right; left; reflexivity).
    destruct (keyed_combination_of _ k m Hkeyed Hin) as [Hc Hk].
    rewrite (save_visit_not_skipped ms m _ Hc
               (Hnoskip m (or_introl eq_refl))).
    assert (forall k0 m0, In (k0, m0) d1 ->
              key_of (combination_of m0) <> key_of (combination_of m))
      as Hother.
    { intros k0 m0 Hin0.
      assert (In (k0, m0) (d1 ++ (k, m) :: d2)) as Hin0'
        by (apply in_or_app; left; exact Hin0).
      destruct (keyed_combination_of _ k0 m0 Hkeyed Hin0') as [_ Hk0].
      rewrite <- Hk0, <- Hk. apply (mwf_app_fresh d1 d2 k m Hwf k0).
      change k0 with (fst (k0, m0)). apply in_map. exact Hin0. }
    assert (mget (combination_of m) (snapshot d1) = None) as Hfresh.
    { apply mget_None_iff. intros k1 Hk1.
      unfold dict_keys, snapshot in Hk1. rewrite map_map in Hk1.
      apply in_map_iff in Hk1. destruct Hk1 as [[k0 m0] [<- Hin0]].
      simpl. apply (Hother k0 m0 Hin0). }
    rewrite (mset_fresh _ _ _ Hfresh).
    rewrite (dict_set_fresh _ _ _ _ (json_get_fresh d1 _ Hother)).
    replace (d1 ++ (k, m) :: d2) with ((d1 ++ [(k, m)]) ++ d2) in *
      by (rewrite <- app_assoc; reflexivity).
    replace (snapshot d1 ++ _) with (snapshot (d1 ++ [(k, m)]))
      by (unfold snapshot; rewrite map_app; reflexivity).
    replace (json_of d1 ++ _) with (json_of (d1 ++ [(k, m)]))
      by (unfold json_of; rewrite map_app; reflexivity).
    apply IH; auto.
    intros m' Hm'. apply Hnoskip. right. exact Hm'.
Qed.

(** X15. A preset with a path and unsaved changes, all of whose mappings
    are valid and filed under their own combinations, is written in full:
    [save] dumps one JSON entry per mapping, in the order of the dict, keyed
    by the mapping's combination, and takes the copies of all mappings as
    the saved snapshot. *)
Theorem save_writes_every_mapping_of_a_valid_preset
    (p : Preset) (path : Path)
    (Hpath : _path p = Some path)
    (Hset : path_unset (_path p) = false)
    (Hwf : mwf (_mappings p))
    (Hkeyed : keyed_by_combination (_mappings p))
    (Hvalid : Preset_is_valid p = true)
    (Hdirty : has_unsaved_changes p = true) :
  save p
  = (Ok tt,
     mkPreset (_mappings p) (snapshot (_mappings p)) (_path p),
     [IOTouch path; IOWrite path (json_of (_mappings p))])
  /\ length (json_of (_mappings p)) = Preset_len p
  /\ dict_keys (json_of (_mappings p)) = map key_of (dict_keys (_mappings p)).
Proof.
  split; [|split].
  - assert (forall m, In m (Preset_iter p) ->
                      save_visit (Preset_iter p) m <> Ok Skipped) as Hnoskip.
    { intros m Hm. unfold Preset_is_valid in Hvalid.
      rewrite forallb_forall in Hvalid. specialize (Hvalid m Hm).
      unfold save_visit. rewrite Hvalid. simpl.
      destruct (event_combination m); discriminate. }
    pose proof (save_loop_writes_all (Preset_iter p) [] (_mappings p)
                  Hwf Hkeyed Hnoskip) as Hloop.
    simpl in Hloop.
    unfold save. rewrite Hset, Hdirty. rewrite Hpath at 1. simpl.
    unfold Preset_iter at 2. rewrite Hloop. reflexivity.
  - unfold json_of, Preset_len. apply length_map.
  - unfold json_of, dict_keys. rewrite !map_map.
    apply map_ext_in. intros [k m] Hin. simpl.
    destruct (keyed_combination_of _ k m Hkeyed Hin) as [_ Hk].
    unfold json_str. symmetry. exact Hk.
Qed.

Lemma save_writes_every_mapping_of_a_valid_preset_witness :
  let s_to_a :=
    mkMapping (Combination [KEY_S_down]) (Some "a"%string) true None in
  let p :=
    snd (add (snd (add (Preset_init (Some sample_path)) ctrl_a)) s_to_a) in
  Preset_is_valid p = true
  /\ snd (save p)
     = [IOTouch sample_path;
        IOWrite sample_path [([(1, 29, 1); (1, 30, 1)], Some "b"%string);
                             ([(1, 31, 1)], Some "a"%string)]].
Proof.
  intros s_to_a p. split; [reflexivity|].
  assert (keyed_by_combination (_mappings p)) as Hkeyed.
  { unfold p. apply add_keeps_keys_in_step, add_keeps_keys_in_step.
    intros k m []. }
  assert (mwf (_mappings p)) as Hwf.
  { apply no_permuted_keys_wf. unfold p.
    apply add_keeps_invariant, add_keeps_invariant. exact I. }
  rewrite (proj1 (save_writes_every_mapping_of_a_valid_preset p sample_path
                    eq_refl eq_refl Hwf Hkeyed eq_refl eq_refl)).
  reflexivity.
Defined.

(** ** Preset.has_unsaved_changes after an edit *)

(** X16. A preset without unsaved changes has some as soon as a mapping is
    added to it or removed from it: the dict and the saved snapshot then
    differ in size. *)
Theorem add_and_remove_make_dirty (p : Preset)
    (Hclean : has_unsaved_changes p = false) :
  (forall m, fst (add p m) = Ok tt ->
             has_unsaved_changes (snd (add p m)) = true)
  /\ (forall c, snd (remove p c) <> None ->
                has_unsaved_changes (fst (remove p c)) = true).
Proof.
  assert (length (_mappings p) = length (_saved_mappings p)) as Hlen.
  { unfold has_unsaved_changes, dict_eqb in Hclean.
    apply negb_false_iff, andb_true_iff in Hclean.
    destruct Hclean as [H _]. apply Nat.eqb_eq in H. exact H. }
  assert (forall d, length d <> length (_saved_mappings p) ->
            has_unsaved_changes (mkPreset d (_saved_mappings p) (_path p))
            = true) as Hsize.
  { intros d Hd. unfold has_unsaved_changes, dict_eqb. simpl.
    apply Nat.eqb_neq in Hd. rewrite Hd. reflexivity. }
  split.
  - intros m Hok. unfold add in *.
    destruct (event_combination m) as [c|]; [|discriminate].
    destruct (existsb _ (get_permutations c)) eqn:E; [discriminate|].
    simpl. apply Hsize.
    pose proof (proj1 (no_permutation_stored _ _) E) as Hfresh.
    rewrite mset_fresh.
    + rewrite length_app. simpl. lia.
    + apply mget_None_iff. intros k Hk Heq. apply (Hfresh k Hk).
      apply same_trigger_key. symmetry. exact Heq.
  - intros c Hsome.
    destruct (remove_result p c) as [[Hrm _]|(x & m & rest & _ & Hpop & Hrm)];
      rewrite Hrm in *; simpl in *; [congruence|].
    apply Hsize. apply mpop_length in Hpop. lia.
Qed.

Lemma add_and_remove_make_dirty_witness :
  let saved := snd (fst (save sample_preset)) in
  has_unsaved_changes saved = false
  /\ has_unsaved_changes (fst (remove saved [KEY_S_down])) = true.
Proof.
  intros saved. split; [reflexivity|].
  apply (proj2 (add_and_remove_make_dirty saved eq_refl)).
  discriminate.
Defined.

(** ** Preset.get_mapping: only the events' identities count *)

Lemma first_existing_keys (d : MappingsDict) (L L' : list EventCombination) :
  map key_of L = map key_of L' -> first_existing d L = first_existing d L'.
Proof.
  revert L'; induction L as [|x L IH]; intros [|x' L']; simpl;
    try discriminate; [reflexivity|].
  intros H. inversion H as [[Hx HL]].
  rewrite (mget_key x x' d Hx), (IH L' HL). reflexivity.
Qed.

(** X17. [get_mapping] looks a combination up by the (type, code, value)
    of its events alone: two combinations whose events agree in these, be
    their time stamps and action tags what they may, get the same answer
    from every preset. *)
Theorem get_mapping_ignores_time_and_action
    (p : Preset) (c c' : EventCombination)
    (Hkey : key_of c = key_of c') :
  get_mapping p (Some c) = get_mapping p (Some c').
Proof.
  destruct c as [|e c], c' as [|e' c']; try discriminate; [reflexivity|].
  rewrite !get_mapping_nonempty by discriminate.
  apply first_existing_keys.
  rewrite !get_permutations_keys, Hkey. reflexivity.
Qed.

Lemma get_mapping_ignores_time_and_action_witness :
  get_mapping sample_preset
    (Some [mkInputEvent 1700000000 250 EV_KEY 29 1 as_key;
           mkInputEvent 1700000001 0 EV_KEY 30 1 recenter])
  = get_mapping sample_preset (Some [KEY_LEFTCTRL_down; KEY_A_down]).
Proof.
  apply get_mapping_ignores_time_and_action. reflexivity.
Defined.
